(** * TreeStore: a flat, parent-linked collection of labelled nodes

    Shallow embedding of the Pinia store [useTreeStore] (getters
    [getItemById], [getChildren]; actions [initialize], [getAllChildren],
    [getAllParents], [addItem], [removeItem], [updateItem]) and the
    properties its specification states about it.

    Modelling choices.
    - The array [items] is a [list TreeNode]; [find], [filter], [map],
      [some] and [push] are [find], [filter], [map], [existsb] and
      append at the end.
    - [string | null] is [option string].
    - The inputs of [initialize], [addItem] and [updateItem] carry ids
      of type [number | string]; a number is an integer, NaN, or any
      other number given by its string form (see [RawId]). No statement
      below depends on how a number is printed, only the examples do.
    - An action is a function from the store state to an outcome that
      carries the final state, so that what a thrown error leaves behind
      is visible.
    - The two recursive traversals take a fuel argument that bounds the
      depth of nested calls; running out of fuel is an outcome of its
      own, distinct from every error the store throws. *)

From Stdlib Require Import List String Ascii ZArith Lia Bool Arith.
From Stdlib Require Import Relations DecimalString Permutation.
Import ListNotations.
Open Scope string_scope.
Open Scope list_scope.

(** * The store *)

(** ** Data model *)

(** interface TreeNode { id: string; parent: string | null; label: string } *)
Record TreeNode : Type := mkTreeNode {
  id : string;
  parent : option string;
  label : string
}.

(** interface TreeState { items: TreeNode[] } *)
Record TreeState : Type := mkTreeState {
  items : list TreeNode
}.

(** The type [number | string] of the ids that enter the store. A
    number is one of: an integer [RNum n] (both zeros are [RNum 0]; this
    is the number [n] for [n] up to 2^53 in magnitude, which [String]
    prints digit by digit), the number NaN, or any other number (a
    fraction, an infinity, a larger integer), given by its string form,
    which is never empty: its first character and the rest. Every
    number that the code can receive is one of these; the store only
    ever takes the string form and the truthiness of such a value. *)
Inductive RawId : Type :=
| RNum (n : Z)
| RNaN
| ROtherNum (first : ascii) (rest : string)
| RStr (s : string).

(** The argument type of [initialize] (elementwise), [addItem] and
    [updateItem]: { id: number | string; parent: number | string | null;
    label: string }. *)
Record RawItem : Type := mkRawItem {
  raw_id : RawId;
  raw_parent : option RawId;
  raw_label : string
}.

(** JavaScript's [String(v)] on a number or a string. *)
Definition js_String (v : RawId) : string :=
  match v with
  | RNum n => NilZero.string_of_int (Z.to_int n)
  | RNaN => "NaN"
  | ROtherNum first rest => String first rest
  | RStr s => s
  end.

(** JavaScript truthiness of a number or a string: the numbers [0] (of
    either sign) and NaN and the empty string are falsy, every other
    number and string is truthy. *)
Definition truthy (v : RawId) : bool :=
  match v with
  | RNum n => negb (Z.eqb n 0)
  | RNaN => false
  | ROtherNum _ _ => true
  | RStr s => negb (String.eqb s "")
  end.

(** The object literal shared by [initialize], [addItem] and [updateItem]:
    { ...item, id: String(item.id),
      parent: item.parent ? String(item.parent) : null } *)
Definition normalize (item : RawItem) : TreeNode :=
  {| id := js_String (raw_id item);
     parent := match raw_parent item with
               | Some p => if truthy p then Some (js_String p) else None
               | None => None
               end;
     label := raw_label item |}.

(** [a !== b] negated, on values of type [string | null]. *)
Definition parent_eqb (a b : option string) : bool :=
  match a, b with
  | Some x, Some y => String.eqb x y
  | None, None => true
  | _, _ => false
  end.

(** [!item.parent] on a value of type [string | null]: null and the empty
    string are falsy. *)
Definition no_parent (p : option string) : bool :=
  match p with
  | None => true
  | Some s => String.eqb s ""
  end.

(** ** Getters *)

(** state.items.find(item => item.id === id) *)
Definition getItemById (state : TreeState) (i : string) : option TreeNode :=
  find (fun item => String.eqb (id item) i) (items state).

(** state.items.filter(item => item.parent === id) *)
Definition getChildren (state : TreeState) (i : string) : list TreeNode :=
  filter (fun item => parent_eqb (parent item) (Some i)) (items state).

(** ** Recursive traversals *)

(** const children = this.getChildren(id);
    const result = [...children];
    children.forEach(child => result.push(...this.getAllChildren(child.id)));
    return result; *)
Fixpoint getAllChildren (fuel : nat) (state : TreeState) (i : string)
  : option (list TreeNode) :=
  match fuel with
  | O => None
  | S fuel' =>
      let children := getChildren state i in
      fold_left
        (fun result child =>
           match result, getAllChildren fuel' state (id child) with
           | Some r, Some sub => Some (r ++ sub)
           | _, _ => None
           end)
        children (Some children)
  end.

(** const item = this.getItemById(id);
    if (!item || !item.parent) return [];
    const parent = this.getItemById(item.parent);
    if (!parent) return [];
    return [parent, ...this.getAllParents(parent.id)]; *)
Fixpoint getAllParents (fuel : nat) (state : TreeState) (i : string)
  : option (list TreeNode) :=
  match fuel with
  | O => None
  | S fuel' =>
      match getItemById state i with
      | None => Some []
      | Some item =>
          if no_parent (parent item) then Some []
          else
            match parent item with
            | None => Some []
            | Some p =>
                match getItemById state p with
                | None => Some []
                | Some par =>
                    match getAllParents fuel' state (id par) with
                    | Some rest => Some (par :: rest)
                    | None => None
                    end
                end
            end
      end
  end.

(** ** Actions *)

(** The five errors the store throws; the source distinguishes them by
    message only:
    - [DuplicateIdError i]: "Элемент с id i уже существует"
    - [ParentNotFoundError p]: "Родитель с id p не найден"
    - [NotFoundError i]: "Элемент с id i не найден"
    - [NewParentNotFoundError p]: "Новый родитель с id p не найден"
    - [CycleError]: "Невозможно установить родителем потомка
      (создастся циклическая зависимость)" *)
Inductive Error : Type :=
| DuplicateIdError (i : string)
| ParentNotFoundError (p : string)
| NotFoundError (i : string)
| NewParentNotFoundError (p : string)
| CycleError.

Inductive Outcome (A : Type) : Type :=
| Returned (a : A) (s : TreeState)
| Threw (e : Error) (s : TreeState)
| OutOfFuel.

Arguments Returned {A} a s.
Arguments Threw {A} e s.
Arguments OutOfFuel {A}.

Definition Action (A : Type) : Type := TreeState -> Outcome A.

Definition ret {A : Type} (a : A) : Action A := fun s => Returned a s.

Definition bind {A B : Type} (m : Action A) (k : A -> Action B) : Action B :=
  fun s =>
    match m s with
    | Returned a s' => k a s'
    | Threw e s' => Threw e s'
    | OutOfFuel => OutOfFuel
    end.

Definition throw {A : Type} (e : Error) : Action A := fun s => Threw e s.

(** Reading through [this]. *)
Definition read {A : Type} (f : TreeState -> A) : Action A :=
  fun s => Returned (f s) s.

(** this.items = l *)
Definition assign_items (l : list TreeNode) : Action unit :=
  fun _ => Returned tt {| items := l |}.

(** A call of one of the recursive traversals. *)
Definition call {A : Type} (f : TreeState -> option A) : Action A :=
  fun s =>
    match f s with
    | Some a => Returned a s
    | None => OutOfFuel
    end.

(** l.forEach(body) *)
Fixpoint forEach {A : Type} (l : list A) (body : A -> Action unit)
  : Action unit :=
  match l with
  | [] => ret tt
  | x :: l' => bind (body x) (fun _ => forEach l' body)
  end.

Declare Scope action_scope.
Delimit Scope action_scope with action.
Notation "x <- m ;; k" := (bind m (fun x => k))
  (at level 61, m at next level, right associativity) : action_scope.
Notation "m ;;; k" := (bind m (fun _ => k))
  (at level 61, right associativity) : action_scope.
Open Scope action_scope.

(** this.items = items.map(item => ({...})) *)
Definition initialize (raw : list RawItem) : Action unit :=
  assign_items (map normalize raw).

(** const newItem = {...};
    if (this.getItemById(newItem.id)) throw ...;
    if (newItem.parent !== null) {
      const parent = this.getItemById(newItem.parent);
      if (!parent) throw ...;
    }
    this.items.push(newItem); *)
Definition addItem (item : RawItem) : Action unit :=
  let newItem := normalize item in
  found <- read (fun s => getItemById s (id newItem)) ;;
  match found with
  | Some _ => throw (DuplicateIdError (id newItem))
  | None =>
      match parent newItem with
      | Some p =>
          par <- read (fun s => getItemById s p) ;;
          match par with
          | None => throw (ParentNotFoundError p)
          | Some _ => ret tt
          end
      | None => ret tt
      end ;;;
      its <- read items ;;
      assign_items (its ++ [newItem])
  end.

(** const item = this.getItemById(id);
    if (!item) throw ...;
    const allChildren = this.getAllChildren(id);
    allChildren.forEach(child => {
      this.items = this.items.filter(item => item.id !== child.id);
    });
    this.items = this.items.filter(item => item.id !== id); *)
Definition removeItem (fuel : nat) (i : string) : Action unit :=
  item <- read (fun s => getItemById s i) ;;
  match item with
  | None => throw (NotFoundError i)
  | Some _ =>
      allChildren <- call (fun s => getAllChildren fuel s i) ;;
      forEach allChildren
        (fun child =>
           its <- read items ;;
           assign_items
             (filter (fun item => negb (String.eqb (id item) (id child))) its)) ;;;
      its <- read items ;;
      assign_items (filter (fun item => negb (String.eqb (id item) i)) its)
  end.

(** const newItem = {...};
    const existingItem = this.getItemById(newItem.id);
    if (!existingItem) throw ...;
    if (newItem.parent !== existingItem.parent && newItem.parent !== null) {
      const newParent = this.getItemById(newItem.parent);
      if (!newParent) throw ...;
      const allParents = this.getAllParents(existingItem.id);
      if (allParents.some(parent => parent.id === newItem.parent)) throw ...;
    }
    this.items = this.items.map(item =>
      item.id === newItem.id ? newItem : item);
    The two conjuncts of the condition are tested here null first. *)
Definition updateItem (fuel : nat) (updatedItem : RawItem) : Action unit :=
  let newItem := normalize updatedItem in
  existing <- read (fun s => getItemById s (id newItem)) ;;
  match existing with
  | None => throw (NotFoundError (id newItem))
  | Some existingItem =>
      match parent newItem with
      | Some p =>
          if negb (parent_eqb (parent newItem) (parent existingItem)) then
            newParent <- read (fun s => getItemById s p) ;;
            match newParent with
            | None => throw (NewParentNotFoundError p)
            | Some _ =>
                allParents <-
                  call (fun s => getAllParents fuel s (id existingItem)) ;;
                if existsb (fun par => String.eqb (id par) p) allParents
                then throw CycleError
                else ret tt
            end
          else ret tt
      | None => ret tt
      end ;;;
      its <- read items ;;
      assign_items
        (map (fun item => if String.eqb (id item) (id newItem)
                          then newItem else item) its)
  end.

(** ** Stores and inputs of the scenarios and tests *)

Definition node (i : string) (p : option string) (l : string) : TreeNode :=
  {| id := i; parent := p; label := l |}.

Definition chain3 : TreeState :=
  {| items := [node "1" None "Root"; node "2" (Some "1") "A";
               node "3" (Some "2") "B"] |}.

Definition family5 : TreeState :=
  {| items := [node "1" None "Root"; node "2" (Some "1") "Child 1";
               node "3" (Some "1") "Child 2"; node "4" (Some "2") "Grandchild 1";
               node "5" (Some "2") "Grandchild 2"] |}.

(** The store of the tests of [updateItem]. *)
Definition root_child : TreeState :=
  {| items := [node "1" None "Root"; node "2" (Some "1") "Child"] |}.

Definition solo : TreeState :=
  {| items := [node "1" None "Root"] |}.

Definition zero_parent : list RawItem :=
  [mkRawItem (RNum 0) None "Root"; mkRawItem (RNum 1) (Some (RNum 0)) "Child"].

Definition twin_ids : list RawItem :=
  [mkRawItem (RNum 1) None "First"; mkRawItem (RStr "1") None "Second"].

Definition self_loop : TreeState :=
  {| items := [node "1" (Some "1") "Loop"] |}.

Definition blank_parent : TreeState :=
  {| items := [node "" None "Root"; node "a" (Some "") "A"] |}.

Definition twins : TreeState :=
  {| items := [node "a" None "x"; node "a" None "y"] |}.

(** * The forest invariant *)

(** [parent_of state c p]: some node of the collection has id [c] and
    parent reference [p]. *)
Definition parent_of (state : TreeState) (c p : string) : Prop :=
  exists x, In x (items state) /\ id x = c /\ parent x = Some p.

(** [ancestor state c a]: following parent references from [c], one or
    more times, arrives at [a]. *)
Inductive ancestor (state : TreeState) : string -> string -> Prop :=
| ancestor_parent c p :
    parent_of state c p -> ancestor state c p
| ancestor_step c p a :
    parent_of state c p -> ancestor state p a -> ancestor state c a.

Definition unique_ids (state : TreeState) : Prop :=
  NoDup (map id (items state)).

Definition parents_resolve (state : TreeState) : Prop :=
  forall x p, In x (items state) -> parent x = Some p ->
              exists y, In y (items state) /\ id y = p.

Definition acyclic (state : TreeState) : Prop :=
  forall c, ~ ancestor state c c.

(** Every non-null parent reference resolves to a node of the collection,
    no node is its own ancestor, and ids are unique. *)
Record forest (state : TreeState) : Prop := mkForest {
  forest_unique : unique_ids state;
  forest_resolve : parents_resolve state;
  forest_acyclic : acyclic state
}.

(** [descendant state i x]: the node [x] of the collection lies below [i]. *)
Definition descendant (state : TreeState) (i : string) (x : TreeNode) : Prop :=
  In x (items state) /\ ancestor state (id x) i.

(** ** A checker for the invariant *)

Fixpoint nodupb (l : list string) : bool :=
  match l with
  | [] => true
  | x :: r => negb (existsb (String.eqb x) r) && nodupb r
  end.

Definition is_some {A : Type} (o : option A) : bool :=
  match o with Some _ => true | None => false end.

Definition parents_resolveb (state : TreeState) : bool :=
  forallb (fun x => match parent x with
                    | None => true
                    | Some p => is_some (getItemById state p)
                    end) (items state).

(** Number of parent links above [i], when at most [fuel] of them. *)
Fixpoint depth (fuel : nat) (state : TreeState) (i : string) : option nat :=
  match fuel with
  | O => None
  | S fuel' =>
      match getItemById state i with
      | None => Some O
      | Some x =>
          match parent x with
          | None => Some O
          | Some p => option_map S (depth fuel' state p)
          end
      end
  end.

Definition acyclicb (state : TreeState) : bool :=
  forallb (fun x => is_some (depth (S (List.length (items state))) state (id x)))
          (items state).

Definition forestb (state : TreeState) : bool :=
  nodupb (map id (items state)) && parents_resolveb state && acyclicb state.

(** * Notions used in the statements *)

(** The results of the recursive calls of one level, child by child. *)
Fixpoint collect (g : TreeNode -> option (list TreeNode)) (l : list TreeNode)
  : option (list (list TreeNode)) :=
  match l with
  | [] => Some []
  | c :: l' =>
      match g c, collect g l' with
      | Some r, Some rs => Some (r :: rs)
      | _, _ => None
      end
  end.

(** One step up: the node that the parent reference of the node with id
    [i] resolves to. There is none when [i] names no node, when the
    node's parent is null or empty, and when the parent names no node. *)
Definition resolve_parent (state : TreeState) (i : string) : option TreeNode :=
  match getItemById state i with
  | None => None
  | Some x =>
      match parent x with
      | None => None
      | Some p => if String.eqb p "" then None else getItemById state p
      end
  end.

(** [ancestor_chain state i l]: [l] lists the nodes met by going one step
    up from [i] again and again, nearest first, until no step is left. *)
Inductive ancestor_chain (state : TreeState) : string -> list TreeNode -> Prop :=
| chain_end i :
    resolve_parent state i = None -> ancestor_chain state i []
| chain_link i y l :
    resolve_parent state i = Some y ->
    ancestor_chain state (id y) l ->
    ancestor_chain state i (y :: l).

(** The nodes [removeItem] takes out, given the result of [getAllChildren]. *)
Definition removed (i : string) (allChildren : list TreeNode) (item : TreeNode)
  : bool :=
  String.eqb (id item) i
  || existsb (fun child => String.eqb (id item) (id child)) allChildren.

(** The last statement of [updateItem]:
    this.items.map(item => item.id === newItem.id ? newItem : item) *)
Definition replace_by_id (newItem : TreeNode) (its : list TreeNode)
  : list TreeNode :=
  map (fun item => if String.eqb (id item) (id newItem) then newItem else item)
      its.

(** What the object literal of [initialize] makes of an input element. *)
Definition normal_form (r : RawItem) (n : TreeNode) : Prop :=
  id n = js_String (raw_id r) /\
  label n = raw_label r /\
  (raw_parent r = None -> parent n = None) /\
  (forall p, raw_parent r = Some p -> truthy p = true ->
             parent n = Some (js_String p)) /\
  (forall p, raw_parent r = Some p -> truthy p = false -> parent n = None).

(** ** Claims as the specification words them, where the code differs *)

(** Pre-order as the specification words it: each direct child followed
    immediately by that child's own full descendant sequence, for every
    direct child in [getChildren] order. *)
Fixpoint preorder (fuel : nat) (state : TreeState) (i : string)
  : option (list TreeNode) :=
  match fuel with
  | O => None
  | S fuel' =>
      fold_right
        (fun child rest =>
           match preorder fuel' state (id child), rest with
           | Some sub, Some r => Some (child :: sub ++ r)
           | _, _ => None
           end)
        (Some []) (getChildren state i)
  end.

(** The claim C4 as it is worded. *)
Definition returns_preorder (state : TreeState) (i : string) : Prop :=
  forest state ->
  forall fuel, List.length (items state) < fuel ->
               getAllChildren fuel state i = preorder fuel state i.

(** The claim C6 as it is worded: for each input element the collection
    holds a node with the string forms of its id and of its non-null
    parent, null parent exactly for a null parent, and the same label,
    and [getItemById] on the string form of the id returns that node. *)
Definition roundtrip (raw : list RawItem) : Prop :=
  forall state state',
    initialize raw state = Returned tt state' ->
    forall r, In r raw ->
      exists n, In n (items state') /\
                id n = js_String (raw_id r) /\
                parent n = option_map js_String (raw_parent r) /\
                label n = raw_label r /\
                getItemById state' (js_String (raw_id r)) = Some n.

(** The claim C10 as it is worded: the node with the given id is replaced
    at its position and every other node is left as it was. *)
Definition replaces_one_node (state : TreeState) (u : RawItem) : Prop :=
  forall fuel state' e,
    getItemById state (id (normalize u)) = Some e ->
    updateItem fuel u state = Returned tt state' ->
    exists k, nth_error (items state) k = Some e /\
              nth_error (items state') k = Some (normalize u) /\
              forall j, j <> k ->
                        nth_error (items state') j = nth_error (items state) j.

(** ** Notions used in the further properties of the store *)

(** A node of the collection, seen as an input of [initialize],
    [addItem] or [updateItem]: the type { id: string; parent: string |
    null; label: string } is included in the type of the inputs. *)
Definition raw_of_node (x : TreeNode) : RawItem :=
  {| raw_id := RStr (id x);
     raw_parent := option_map RStr (parent x);
     raw_label := label x |}.

(** No node carries the empty string as its parent reference. *)
Definition no_blank_parent (state : TreeState) : Prop :=
  forall x, In x (items state) -> parent x <> Some "".

(** * The page that shows the store (IndexPage.vue)

    The page keeps three refs beside the store: the history of
    snapshots with its cursor, and the list of expanded rows. Its
    functions are modelled as functions on these refs. The deep watcher
    on [treeStore.items], the timers of [addChild] and [removeItem] and
    the flags [isNew] and [isRemoving] they set are outside the model;
    none of the functions modelled here reads or writes these flags.
    [treeStore.resetItems], which [undo] and [redo] call, is not part of
    the store as given: [undo_as_given] and [redo_as_given] model the
    two functions on that store, where the call throws a TypeError, and
    [undo] and [redo] model them on a store that provides the action,
    taken as a parameter. *)

(** interface TreeTableRow { id; parent; label; index; category;
    children; level } *)
#[warnings="-register-all"]
Inductive TreeTableRow : Type := mkTreeTableRow {
  row_id : string;
  row_parent : option string;
  row_label : string;
  row_index : Z;
  row_category : string;
  row_children : list TreeTableRow;
  row_level : Z
}.

Record Page : Type := mkPage {
  treeStore : TreeState;
  history : list (list TreeNode);
  historyIndex : Z;
  expanded : list string
}.

(** [l.slice(0, e)]: a negative [e] counts from the end. *)
Definition slice_to {A : Type} (l : list A) (e : Z) : list A :=
  firstn (Z.to_nat (if Z.ltb e 0 then Z.of_nat (List.length l) + e else e)%Z) l.

(** [l[i]], undefined outside the array. *)
Definition at_index {A : Type} (l : list A) (i : Z) : option A :=
  if Z.ltb i 0 then None else nth_error l (Z.to_nat i).

(** if (historyIndex.value < history.value.length - 1) {
      history.value = history.value.slice(0, historyIndex.value + 1);
    }
    history.value.push(treeStore.items.map(item => ({ ...item })));
    historyIndex.value = history.value.length - 1; *)
Definition pushHistory (p : Page) : Page :=
  let kept :=
    if Z.ltb (historyIndex p) (Z.of_nat (List.length (history p)) - 1)
    then slice_to (history p) (historyIndex p + 1)%Z
    else history p in
  let pushed := kept ++ [items (treeStore p)] in
  {| treeStore := treeStore p;
     history := pushed;
     historyIndex := (Z.of_nat (List.length pushed) - 1)%Z;
     expanded := expanded p |}.

(** if (historyIndex.value > 0) {
      historyIndex.value--;
      const state = history.value[historyIndex.value];
      if (state) { treeStore.resetItems(state); }
    }
    This is [undo] on a store that provides [resetItems]; with the
    store as given, which has no such action, see [undo_as_given]. *)
Definition undo (resetItems : list TreeNode -> TreeState -> TreeState)
  (p : Page) : Page :=
  if Z.ltb 0 (historyIndex p) then
    let idx := (historyIndex p - 1)%Z in
    {| treeStore := match at_index (history p) idx with
                    | Some state => resetItems state (treeStore p)
                    | None => treeStore p
                    end;
       history := history p;
       historyIndex := idx;
       expanded := expanded p |}
  else p.

(** if (historyIndex.value < history.value.length - 1) {
      historyIndex.value++;
      const state = history.value[historyIndex.value];
      if (state) { treeStore.resetItems(state); }
    }
    This is [redo] on a store that provides [resetItems]; with the
    store as given see [redo_as_given]. *)
Definition redo (resetItems : list TreeNode -> TreeState -> TreeState)
  (p : Page) : Page :=
  if Z.ltb (historyIndex p) (Z.of_nat (List.length (history p)) - 1) then
    let idx := (historyIndex p + 1)%Z in
    {| treeStore := match at_index (history p) idx with
                    | Some state => resetItems state (treeStore p)
                    | None => treeStore p
                    end;
       history := history p;
       historyIndex := idx;
       expanded := expanded p |}
  else p.

(** How a function of the page ends: by returning, or by the TypeError
    of a call to [treeStore.resetItems], which the store as given does
    not define; either way the refs are left in some state. *)
Inductive PageOutcome : Type :=
| PageReturned (p : Page)
| PageThrewTypeError (p : Page).

Definition page_after (o : PageOutcome) : Page :=
  match o with
  | PageReturned p => p
  | PageThrewTypeError p => p
  end.

(** [undo] with the store as given: the cursor is moved first; when a
    snapshot is found there, the call [treeStore.resetItems(state)]
    throws, and nothing else has been written. *)
Definition undo_as_given (p : Page) : PageOutcome :=
  if Z.ltb 0 (historyIndex p) then
    let idx := (historyIndex p - 1)%Z in
    let moved := {| treeStore := treeStore p;
                    history := history p;
                    historyIndex := idx;
                    expanded := expanded p |} in
    match at_index (history p) idx with
    | Some _ => PageThrewTypeError moved
    | None => PageReturned moved
    end
  else PageReturned p.

(** [redo] with the store as given. *)
Definition redo_as_given (p : Page) : PageOutcome :=
  if Z.ltb (historyIndex p) (Z.of_nat (List.length (history p)) - 1) then
    let idx := (historyIndex p + 1)%Z in
    let moved := {| treeStore := treeStore p;
                    history := history p;
                    historyIndex := idx;
                    expanded := expanded p |} in
    match at_index (history p) idx with
    | Some _ => PageThrewTypeError moved
    | None => PageReturned moved
    end
  else PageReturned p.

(** expanded.value.includes(id) *)
Definition isExpanded (p : Page) (i : string) : bool :=
  existsb (String.eqb i) (expanded p).

(** if (isExpanded(id)) {
      expanded.value = expanded.value.filter(eid => eid !== id);
    } else { expanded.value.push(id); } *)
Definition toggleExpand (i : string) (p : Page) : Page :=
  {| treeStore := treeStore p;
     history := history p;
     historyIndex := historyIndex p;
     expanded := if isExpanded p i
                 then filter (fun eid => negb (String.eqb eid i)) (expanded p)
                 else expanded p ++ [i] |}.

(** [l.map(f)] for a callback that advances a shared counter and may not
    return. *)
Fixpoint map_counting {A B : Type} (f : A -> Z -> option (B * Z))
  (l : list A) (counter : Z) : option (list B * Z) :=
  match l with
  | [] => Some ([], counter)
  | a :: l' =>
      match f a counter with
      | None => None
      | Some (b, counter1) =>
          match map_counting f l' counter1 with
          | None => None
          | Some (bs, counter2) => Some (b :: bs, counter2)
          end
      end
  end.

(** return treeStore.items
      .filter(item => item.parent === parentId)
      .map(item => {
        const children = buildTreeTableRows(item.id, level + 1, idxOffset);
        const row = { id: item.id, parent: item.parent, label: item.label,
                      index: idxOffset.value++,
                      category: children.length > 0 ? 'Группа' : 'Элемент',
                      children, level };
        return row;
      });
    [idxOffset] is one object shared by all the calls; its value is
    passed in and handed back. *)
Fixpoint buildTreeTableRows (fuel : nat) (state : TreeState)
  (parentId : option string) (level : Z) (idxOffset : Z)
  : option (list TreeTableRow * Z) :=
  match fuel with
  | O => None
  | S fuel' =>
      map_counting
        (fun item counter =>
           match buildTreeTableRows fuel' state (Some (id item)) (level + 1)%Z
                                    counter with
           | None => None
           | Some (children, counter') =>
               Some ({| row_id := id item;
                        row_parent := parent item;
                        row_label := label item;
                        row_index := counter';
                        row_category :=
                          if Nat.ltb 0 (List.length children)
                          then "Группа" else "Элемент";
                        row_children := children;
                        row_level := level |},
                     (counter' + 1)%Z)
           end)
        (filter (fun item => parent_eqb (parent item) parentId) (items state))
        idxOffset
  end.

(** const treeRows = computed(() => buildTreeTableRows(null)), with the
    default arguments level = 0 and idxOffset = { value: 1 }. *)
Definition treeRows (fuel : nat) (p : Page) : option (list TreeTableRow) :=
  option_map fst (buildTreeTableRows fuel (treeStore p) None 0 1).

(** const result = [];
    for (const row of rows) {
      result.push(row);
      if (row.children.length > 0 && isExpanded(row.id)) {
        result.push(...renderRows(row.children));
      }
    }
    return result;
    [renderRow] is the body of the loop for one row. *)
Fixpoint renderRow (p : Page) (row : TreeTableRow) : list TreeTableRow :=
  row :: (if Nat.ltb 0 (List.length (row_children row))
             && isExpanded p (row_id row)
          then flat_map (renderRow p) (row_children row)
          else []).

Definition renderRows (p : Page) (rows : list TreeTableRow)
  : list TreeTableRow :=
  flat_map (renderRow p) rows.

(** The assignment [item.label = newLabel] on the first item with the
    given id. *)
Fixpoint set_label_first (i newLabel : string) (l : list TreeNode)
  : list TreeNode :=
  match l with
  | [] => []
  | x :: l' =>
      if String.eqb (id x) i
      then {| id := id x; parent := parent x; label := newLabel |} :: l'
      else x :: set_label_first i newLabel l'
  end.

(** const item = treeStore.items.find(i => i.id === id);
    if (item) { item.label = newLabel; pushHistory(); } *)
Definition updateLabel (i newLabel : string) (p : Page) : Page :=
  match getItemById (treeStore p) i with
  | Some _ =>
      pushHistory
        {| treeStore :=
             {| items := set_label_first i newLabel (items (treeStore p)) |};
           history := history p;
           historyIndex := historyIndex p;
           expanded := expanded p |}
  | None => p
  end.

(** ** Notions used in the statements on the page *)

(** All the rows of a table, each row before its children. *)
Fixpoint rows_below (row : TreeTableRow) : list TreeTableRow :=
  row :: flat_map rows_below (row_children row).

Definition all_rows (rows : list TreeTableRow) : list TreeTableRow :=
  flat_map rows_below rows.

(** All the rows of a table, each row after its children. *)
Fixpoint rows_below_post (row : TreeTableRow) : list TreeTableRow :=
  flat_map rows_below_post (row_children row) ++ [row].

Definition all_rows_post (rows : list TreeTableRow) : list TreeTableRow :=
  flat_map rows_below_post rows.

(** [row_of_item level item row]: the row shows the item at the given
    level, is a group exactly when it has children, and its children
    are rows of the next level for items whose parent is the item. *)
Definition row_of_item (level : Z) (item : TreeNode) (row : TreeTableRow)
  : Prop :=
  row_id row = id item /\
  row_parent row = parent item /\
  row_label row = label item /\
  row_level row = level /\
  (row_children row = [] -> row_category row = "Элемент") /\
  (row_children row <> [] -> row_category row = "Группа") /\
  Forall (fun child => row_parent child = Some (id item) /\
                       row_level child = (level + 1)%Z)
         (row_children row).

(** The [n] numbers from [c] on. *)
Definition count_from (c : Z) (n : nat) : list Z :=
  map (fun k => (c + Z.of_nat k)%Z) (seq 0 n).

(** [under state root j]: [j] is the id of the node [root] or of a node
    below it. *)
Definition under (state : TreeState) (root : TreeNode) (j : string) : Prop :=
  j = id root \/
  exists x, In x (items state) /\ id x = j /\ ancestor state j (id root).

(** The cursor of the history points at one of its snapshots. *)
Definition history_ok (p : Page) : Prop :=
  (0 <= historyIndex p < Z.of_nat (List.length (history p)))%Z.

(** A small store in the shape of the page's initial data (the first
    four of its eight items, with labels in Latin letters), and a page
    on it as [onMounted] leaves one. *)
Definition seed : TreeState :=
  {| items := [node "1" None "Item 1"; node "2" (Some "1") "Item 2";
               node "3" (Some "1") "Item 3"; node "4" (Some "2") "Item 4"] |}.

Definition seed_page : Page :=
  {| treeStore := seed; history := [items seed]; historyIndex := 0;
     expanded := [] |}.

(** * Lemmas *)

(** ** The scenarios, run *)

Example getAllChildren_family5 :
  option_map (map id) (getAllChildren 6 family5 "1") = Some ["2"; "3"; "4"; "5"].
Proof. reflexivity. Qed.

Example getAllParents_chain3 :
  option_map (map id) (getAllParents 4 chain3 "3") = Some ["2"; "1"].
Proof. reflexivity. Qed.

Example removeItem_chain3 :
  removeItem 4 "2" chain3 = Returned tt {| items := [node "1" None "Root"] |}.
Proof. reflexivity. Qed.

Example updateItem_chain3 :
  updateItem 4 (mkRawItem (RStr "1") (Some (RStr "3")) "Root") chain3
  = Returned tt {| items := [node "1" (Some "3") "Root"; node "2" (Some "1") "A";
                             node "3" (Some "2") "B"] |}.
Proof. reflexivity. Qed.

(** ** Lemmas on the getters *)

Lemma getItemById_Some state i x :
  getItemById state i = Some x -> In x (items state) /\ id x = i.
Proof.
  unfold getItemById. intros H. apply find_some in H.
  destruct H as [Hin Heq]. apply String.eqb_eq in Heq. auto.
Qed.

Lemma getItemById_None state i :
  getItemById state i = None <-> ~ In i (map id (items state)).
Proof.
  unfold getItemById. split.
  - intros H Hin. apply in_map_iff in Hin. destruct Hin as [x [Hx Hin]].
    apply (find_none _ _ H) in Hin. subst i.
    rewrite String.eqb_refl in Hin. discriminate.
  - intros H. destruct (find _ _) as [x|] eqn:E; [|reflexivity].
    apply find_some in E. destruct E as [Hin Heq]. apply String.eqb_eq in Heq.
    exfalso. apply H. subst i. apply in_map. exact Hin.
Qed.

Lemma getItemById_In state x :
  In x (items state) -> exists y, getItemById state (id x) = Some y.
Proof.
  intros Hin. destruct (getItemById state (id x)) as [y|] eqn:E; eauto.
  apply getItemById_None in E. exfalso. apply E. apply in_map. exact Hin.
Qed.

Lemma unique_ids_inj state x y :
  unique_ids state -> In x (items state) -> In y (items state) ->
  id x = id y -> x = y.
Proof.
  unfold unique_ids. destruct state as [l]. simpl.
  induction l as [|a l IH]; simpl; intros Hnd Hx Hy Heq; [contradiction|].
  inversion Hnd as [|? ? Hnotin Hnd']; subst.
  destruct Hx as [->|Hx], Hy as [->|Hy]; auto.
  - exfalso. apply Hnotin. rewrite Heq. apply in_map. exact Hy.
  - exfalso. apply Hnotin. rewrite <- Heq. apply in_map. exact Hx.
Qed.

Lemma getItemById_unique state x :
  unique_ids state -> In x (items state) -> getItemById state (id x) = Some x.
Proof.
  intros Hu Hin. destruct (getItemById_In state x Hin) as [y Hy].
  rewrite Hy. f_equal. apply getItemById_Some in Hy. destruct Hy as [Hy1 Hy2].
  eapply unique_ids_inj; eauto.
Qed.

Lemma parent_eqb_eq a b : parent_eqb a b = true <-> a = b.
Proof.
  destruct a as [x|], b as [y|]; simpl; split; intros H;
    try discriminate; try reflexivity.
  - apply String.eqb_eq in H. congruence.
  - inversion H. apply String.eqb_refl.
Qed.

Lemma getChildren_In state i c :
  In c (getChildren state i) <-> In c (items state) /\ parent c = Some i.
Proof.
  unfold getChildren. rewrite filter_In. rewrite parent_eqb_eq. tauto.
Qed.

(** ** Lemmas on the ancestor relation *)

Lemma ancestor_trans state a b c :
  ancestor state a b -> ancestor state b c -> ancestor state a c.
Proof.
  intros H. revert c. induction H as [x p Hp | x p a' Hp _ IH]; intros c Hc.
  - eapply ancestor_step; eauto.
  - eapply ancestor_step; eauto.
Qed.

Lemma ancestor_snoc state c a p :
  ancestor state c a -> parent_of state a p -> ancestor state c p.
Proof.
  intros H Hp. eapply ancestor_trans; [exact H|]. apply ancestor_parent. exact Hp.
Qed.

(** The last link of an ancestor path. *)
Lemma ancestor_last state c a :
  ancestor state c a ->
  exists y, In y (items state) /\ parent y = Some a /\
            (id y = c \/ ancestor state c (id y)).
Proof.
  induction 1 as [c p [x [Hin [Hid Hp]]] | c p a Hp _ IH].
  - exists x. auto.
  - destruct IH as [y [Hin [Hpa Hor]]]. exists y. split; [exact Hin|].
    split; [exact Hpa|]. right. destruct Hor as [Hid|Hanc].
    + rewrite Hid. apply ancestor_parent. exact Hp.
    + eapply ancestor_step; eauto.
Qed.

Lemma ancestor_source_In state c a :
  ancestor state c a -> In c (map id (items state)).
Proof.
  intros H. destruct H as [c p [x [Hin [Hid _]]] | c p a [x [Hin [Hid _]]] _];
    subst c; apply in_map; exact Hin.
Qed.

(** An ordered family of ids in which each later id is related to each
    earlier one by an irreflexive relation has no repetition; when drawn
    from the collection it is no longer than the collection. *)
Lemma ordered_chain_length state (R : string -> string -> Prop) (l : list string) :
  (forall c, ~ R c c) ->
  ForallOrdPairs R l ->
  incl l (map id (items state)) ->
  List.length l <= List.length (items state).
Proof.
  intros Hirr Hfop Hincl.
  rewrite <- (length_map id (items state)).
  apply NoDup_incl_length; [|exact Hincl].
  clear Hincl. induction Hfop as [|a l Hall _ IH]; constructor; [|exact IH].
  intros Hin. rewrite Forall_forall in Hall. exact (Hirr a (Hall a Hin)).
Qed.

(** ** Soundness of the checker *)

Lemma nodupb_sound (l : list string) : nodupb l = true -> NoDup l.
Proof.
  induction l as [|x r IH]; simpl; intros H; constructor.
  - apply andb_prop in H. destruct H as [H _]. intros Hin.
    apply negb_true_iff in H.
    assert (E : existsb (String.eqb x) r = true).
    { apply existsb_exists. exists x. split; [exact Hin|apply String.eqb_refl]. }
    congruence.
  - apply IH. apply andb_prop in H. tauto.
Qed.

Lemma parents_resolveb_sound state :
  parents_resolveb state = true -> parents_resolve state.
Proof.
  unfold parents_resolveb, parents_resolve. intros H x p Hin Hp.
  rewrite forallb_forall in H. specialize (H x Hin). rewrite Hp in H.
  destruct (getItemById state p) as [y|] eqn:E; [|discriminate].
  apply getItemById_Some in E. exists y. exact E.
Qed.

(** A rank that decreases along every parent link rules cycles out. *)
Lemma acyclic_of_rank state (rank : string -> nat) :
  (forall c p, parent_of state c p -> rank p < rank c) -> acyclic state.
Proof.
  intros Hrank.
  assert (Hanc : forall c a, ancestor state c a -> rank a < rank c).
  { induction 1 as [c p Hp | c p a Hp _ IH].
    - apply Hrank. exact Hp.
    - apply Hrank in Hp. lia. }
  intros c Hc. apply Hanc in Hc. lia.
Qed.

Lemma depth_mono state fuel fuel' i d :
  depth fuel state i = Some d -> fuel <= fuel' -> depth fuel' state i = Some d.
Proof.
  revert fuel' i d. induction fuel as [|fuel IH]; intros fuel' i d H Hle;
    [discriminate|].
  destruct fuel' as [|fuel']; [lia|]. simpl in *.
  destruct (getItemById state i) as [x|]; [|exact H].
  destruct (parent x) as [p|]; [|exact H].
  destruct (depth fuel state p) as [d'|] eqn:E; [|discriminate].
  rewrite (IH fuel' p d' E); [exact H|lia].
Qed.

Lemma acyclicb_sound state :
  unique_ids state -> acyclicb state = true -> acyclic state.
Proof.
  intros Hu Hb. unfold acyclicb in Hb. rewrite forallb_forall in Hb.
  set (N := S (List.length (items state))) in *.
  apply acyclic_of_rank with
    (rank := fun c => match depth N state c with Some d => d | None => O end).
  intros c p [x [Hin [Hid Hp]]]. subst c.
  specialize (Hb x Hin).
  destruct (depth N state (id x)) as [d|] eqn:E; [|discriminate].
  unfold N in E. simpl in E.
  rewrite (getItemById_unique state x Hu Hin), Hp in E.
  destruct (depth (List.length (items state)) state p) as [d'|] eqn:E';
    [|discriminate].
  simpl in E. inversion E; subst d.
  rewrite (depth_mono state _ N p d' E'); [lia|unfold N; lia].
Qed.

Lemma forestb_sound state : forestb state = true -> forest state.
Proof.
  unfold forestb. intros H.
  apply andb_prop in H. destruct H as [H Hc].
  apply andb_prop in H. destruct H as [Hu Hr].
  apply nodupb_sound in Hu.
  split; [exact Hu|apply parents_resolveb_sound; exact Hr|].
  apply acyclicb_sound; assumption.
Qed.

(** ** Lemmas on [getAllChildren] *)

Lemma fold_push_None (g : TreeNode -> option (list TreeNode)) l :
  fold_left (fun result child =>
               match result, g child with
               | Some r, Some sub => Some (r ++ sub)
               | _, _ => None
               end) l None = None.
Proof. induction l as [|c l IH]; simpl; auto. Qed.

Lemma fold_push_collect (g : TreeNode -> option (list TreeNode)) l acc :
  fold_left (fun result child =>
               match result, g child with
               | Some r, Some sub => Some (r ++ sub)
               | _, _ => None
               end) l (Some acc)
  = option_map (fun rs => acc ++ List.concat rs) (collect g l).
Proof.
  revert acc. induction l as [|c l IH]; intros acc; simpl.
  - rewrite app_nil_r. reflexivity.
  - destruct (g c) as [r|]; [|apply fold_push_None].
    rewrite IH. destruct (collect g l) as [rs|]; simpl; [|reflexivity].
    rewrite app_assoc. reflexivity.
Qed.

Lemma getAllChildren_unfold fuel state i :
  getAllChildren (S fuel) state i
  = option_map (fun rs => getChildren state i ++ List.concat rs)
      (collect (fun c => getAllChildren fuel state (id c)) (getChildren state i)).
Proof. simpl. apply fold_push_collect. Qed.

Lemma collect_Forall2 g l rs :
  collect g l = Some rs <-> Forall2 (fun c r => g c = Some r) l rs.
Proof.
  revert rs. induction l as [|c l IH]; intros rs; simpl.
  - split; intros H.
    + inversion H. constructor.
    + inversion H. reflexivity.
  - split; intros H.
    + destruct (g c) as [r|] eqn:E; [|discriminate].
      destruct (collect g l) as [rs'|]; [|discriminate].
      inversion H; subst. constructor; [exact E|]. apply IH. reflexivity.
    + inversion H as [|? r ? rs' Hg Hrest]; subst. rewrite Hg.
      apply IH in Hrest. rewrite Hrest. reflexivity.
Qed.

Lemma collect_None g l :
  collect g l = None -> exists c, In c l /\ g c = None.
Proof.
  induction l as [|c l IH]; simpl; [discriminate|].
  destruct (g c) as [r|] eqn:E.
  - destruct (collect g l) as [rs|]; [discriminate|].
    intros _. destruct (IH eq_refl) as [c' [Hin Hc']]. exists c'. auto.
  - intros _. exists c. auto.
Qed.

Lemma collect_ext g g' l :
  (forall c, In c l -> g c = g' c) -> collect g l = collect g' l.
Proof.
  induction l as [|c l IH]; simpl; intros H; [reflexivity|].
  rewrite (H c (or_introl eq_refl)), IH; auto.
Qed.

Lemma getAllChildren_mono state fuel fuel' i r :
  getAllChildren fuel state i = Some r -> fuel <= fuel' ->
  getAllChildren fuel' state i = Some r.
Proof.
  revert fuel' i r. induction fuel as [|fuel IH]; intros fuel' i r H Hle;
    [discriminate|].
  destruct fuel' as [|fuel']; [lia|].
  rewrite getAllChildren_unfold in *.
  destruct (collect _ _) as [rs|] eqn:E; [|discriminate].
  apply collect_Forall2 in E.
  assert (E' : collect (fun c => getAllChildren fuel' state (id c))
                 (getChildren state i) = Some rs).
  { apply collect_Forall2. eapply Forall2_impl; [|exact E].
    intros c rc Hc. simpl in Hc. apply IH; [exact Hc|lia]. }
  rewrite E'. exact H.
Qed.

(** When the fuel runs out, a path of that many parent links leads up
    to [i]. *)
Lemma getAllChildren_None_chain state fuel i :
  getAllChildren fuel state i = None ->
  exists l, List.length l = fuel /\
            incl l (map id (items state)) /\
            Forall (fun c => ancestor state c i) l /\
            ForallOrdPairs (fun a b => ancestor state b a) l.
Proof.
  revert i. induction fuel as [|fuel IH]; intros i H.
  - exists []. split; [reflexivity|]. split; [apply incl_nil_l|].
    split; constructor.
  - rewrite getAllChildren_unfold in H.
    destruct (collect _ _) as [rs|] eqn:E; [discriminate|].
    apply collect_None in E. destruct E as [c [Hc Hnone]].
    apply getChildren_In in Hc. destruct Hc as [Hin Hp].
    destruct (IH _ Hnone) as [l [Hlen [Hincl [Hall Hfop]]]].
    assert (Hci : ancestor state (id c) i).
    { apply ancestor_parent. exists c. auto. }
    exists (id c :: l). split; [simpl; congruence|]. split.
    { apply incl_cons; [apply in_map; exact Hin|exact Hincl]. }
    split.
    { constructor; [exact Hci|]. rewrite Forall_forall in *.
      intros a Ha. exact (ancestor_trans state a (id c) i (Hall a Ha) Hci). }
    constructor; assumption.
Qed.

Lemma getAllChildren_terminates state i :
  acyclic state ->
  exists r, getAllChildren (S (List.length (items state))) state i = Some r.
Proof.
  intros Hac.
  destruct (getAllChildren (S (List.length (items state))) state i) as [r|] eqn:E;
    [eauto|].
  apply getAllChildren_None_chain in E.
  destruct E as [l [Hlen [Hincl [_ Hfop]]]].
  assert (Hle : List.length l <= List.length (items state)).
  { eapply ordered_chain_length with (R := fun a b => ancestor state b a); eauto. }
  lia.
Qed.

(** ** Lemmas on [getAllParents] *)

Lemma getAllParents_unfold fuel state i :
  getAllParents (S fuel) state i
  = match resolve_parent state i with
    | None => Some []
    | Some par => option_map (cons par) (getAllParents fuel state (id par))
    end.
Proof.
  simpl. unfold resolve_parent.
  destruct (getItemById state i) as [x|]; [|reflexivity].
  destruct (parent x) as [p|]; simpl; [|reflexivity].
  destruct (String.eqb p ""); [reflexivity|].
  destruct (getItemById state p) as [par|]; [|reflexivity].
  destruct (getAllParents fuel state (id par)); reflexivity.
Qed.

Lemma resolve_parent_Some state i y :
  resolve_parent state i = Some y ->
  In y (items state) /\ parent_of state i (id y).
Proof.
  unfold resolve_parent.
  destruct (getItemById state i) as [x|] eqn:Ex; [|discriminate].
  destruct (parent x) as [p|] eqn:Ep; [|discriminate].
  destruct (String.eqb p ""); [discriminate|].
  intros Hy. apply getItemById_Some in Ex. apply getItemById_Some in Hy.
  destruct Ex as [Hx Hxi], Hy as [Hy Hyp]. split; [exact Hy|].
  exists x. subst p. auto.
Qed.

Lemma getAllParents_mono state fuel fuel' i l :
  getAllParents fuel state i = Some l -> fuel <= fuel' ->
  getAllParents fuel' state i = Some l.
Proof.
  revert fuel' i l. induction fuel as [|fuel IH]; intros fuel' i l H Hle;
    [discriminate|].
  destruct fuel' as [|fuel']; [lia|].
  rewrite getAllParents_unfold in *.
  destruct (resolve_parent state i) as [par|]; [|exact H].
  destruct (getAllParents fuel state (id par)) as [rest|] eqn:E; [|discriminate].
  rewrite (IH fuel' (id par) rest E); [exact H|lia].
Qed.

Lemma getAllParents_sound state fuel i l :
  getAllParents fuel state i = Some l -> ancestor_chain state i l.
Proof.
  revert i l. induction fuel as [|fuel IH]; intros i l H; [discriminate|].
  rewrite getAllParents_unfold in H.
  destruct (resolve_parent state i) as [par|] eqn:E.
  - destruct (getAllParents fuel state (id par)) as [rest|] eqn:Er;
      [|discriminate].
    inversion H; subst l. eapply chain_link; eauto.
  - inversion H; subst l. apply chain_end. exact E.
Qed.

Lemma getAllParents_complete state i l :
  ancestor_chain state i l ->
  getAllParents (S (List.length l)) state i = Some l.
Proof.
  induction 1 as [i E | i y l E _ IH]; rewrite getAllParents_unfold, E.
  - reflexivity.
  - simpl List.length. rewrite IH. reflexivity.
Qed.

Lemma ancestor_chain_functional state i l l' :
  ancestor_chain state i l -> ancestor_chain state i l' -> l = l'.
Proof.
  intros H. revert l'. induction H as [i E | i y l E _ IH]; intros l' H';
    inversion H' as [? E' | ? y' l'' E' Hrest]; subst; try congruence.
  rewrite E in E'. inversion E'; subst y'. f_equal. apply IH. exact Hrest.
Qed.

(** When the fuel runs out, a path of that many parent links leads up
    from [i]. *)
Lemma getAllParents_None_chain state fuel i :
  getAllParents fuel state i = None ->
  exists l, List.length l = fuel /\
            incl l (map id (items state)) /\
            Forall (fun a => ancestor state i a) l /\
            ForallOrdPairs (fun a b => ancestor state a b) l.
Proof.
  revert i. induction fuel as [|fuel IH]; intros i H.
  - exists []. split; [reflexivity|]. split; [apply incl_nil_l|].
    split; constructor.
  - rewrite getAllParents_unfold in H.
    destruct (resolve_parent state i) as [par|] eqn:E; [|discriminate].
    destruct (getAllParents fuel state (id par)) as [rest|] eqn:Er;
      [discriminate|].
    apply resolve_parent_Some in E. destruct E as [Hin Hpo].
    destruct (IH _ Er) as [l [Hlen [Hincl [Hall Hfop]]]].
    exists (id par :: l). split; [simpl; congruence|]. split.
    { apply incl_cons; [apply in_map; exact Hin|exact Hincl]. }
    split.
    { constructor; [apply ancestor_parent; exact Hpo|].
      rewrite Forall_forall in *. intros a Ha.
      exact (ancestor_step state i (id par) a Hpo (Hall a Ha)). }
    constructor; assumption.
Qed.

Lemma getAllParents_terminates state i :
  acyclic state ->
  exists l, getAllParents (S (List.length (items state))) state i = Some l.
Proof.
  intros Hac.
  destruct (getAllParents (S (List.length (items state))) state i) as [l|] eqn:E;
    [eauto|].
  apply getAllParents_None_chain in E.
  destruct E as [l [Hlen [Hincl [_ Hfop]]]].
  assert (Hle : List.length l <= List.length (items state)).
  { eapply ordered_chain_length with (R := fun a b => ancestor state a b); eauto. }
  lia.
Qed.

(** Every member of the ancestor chain is an ancestor in the sense of
    the invariant. *)
Lemma ancestor_chain_ancestor state i l :
  ancestor_chain state i l ->
  Forall (fun y => In y (items state) /\ ancestor state i (id y)) l.
Proof.
  induction 1 as [i E | i y l E _ IH]; constructor.
  - apply resolve_parent_Some in E. destruct E as [Hin Hpo].
    split; [exact Hin|apply ancestor_parent; exact Hpo].
  - apply resolve_parent_Some in E. destruct E as [_ Hpo].
    rewrite Forall_forall in *. intros z Hz. destruct (IH z Hz) as [Hzin Hza].
    split; [exact Hzin|]. eapply ancestor_step; eauto.
Qed.

(** ** [getAllChildren] and the descendants of a node *)

Lemma Forall2_In_l {A B : Type} (P : A -> B -> Prop) l l' a :
  Forall2 P l l' -> In a l -> exists b, In b l' /\ P a b.
Proof.
  induction 1 as [|x y l l' Hxy _ IH]; simpl; [contradiction|].
  intros [->|Hin].
  - exists y. auto.
  - destruct (IH Hin) as [b [Hb Hab]]. exists b. auto.
Qed.

Lemma Forall2_In_r {A B : Type} (P : A -> B -> Prop) l l' b :
  Forall2 P l l' -> In b l' -> exists a, In a l /\ P a b.
Proof.
  induction 1 as [|x y l l' Hxy _ IH]; simpl; [contradiction|].
  intros [->|Hin].
  - exists x. auto.
  - destruct (IH Hin) as [a [Ha Hab]]. exists a. auto.
Qed.

(** One level of the traversal, as a statement on the results. *)
Lemma getAllChildren_level state fuel i r :
  getAllChildren (S fuel) state i = Some r <->
  exists rs,
    Forall2 (fun c rc => getAllChildren fuel state (id c) = Some rc)
            (getChildren state i) rs /\
    r = getChildren state i ++ List.concat rs.
Proof.
  rewrite getAllChildren_unfold. split.
  - destruct (collect _ _) as [rs|] eqn:E; [|discriminate].
    intros H. inversion H. exists rs. split; [|reflexivity].
    apply collect_Forall2 in E. exact E.
  - intros [rs [HF Hr]]. apply collect_Forall2 in HF. rewrite HF.
    subst r. reflexivity.
Qed.

Lemma getAllChildren_sound state fuel i r :
  getAllChildren fuel state i = Some r ->
  forall x, In x r -> descendant state i x.
Proof.
  revert i r. induction fuel as [|fuel IH]; intros i r H x Hx; [discriminate|].
  apply getAllChildren_level in H. destruct H as [rs [HF Hr]]. subst r.
  apply in_app_or in Hx. destruct Hx as [Hx|Hx].
  - apply getChildren_In in Hx. destruct Hx as [Hin Hp].
    split; [exact Hin|]. apply ancestor_parent. exists x. auto.
  - apply in_concat in Hx. destruct Hx as [rc [Hrc Hxrc]].
    destruct (Forall2_In_r _ _ _ rc HF Hrc) as [c [Hc Hcall]].
    apply getChildren_In in Hc. destruct Hc as [Hcin Hcp].
    destruct (IH _ _ Hcall x Hxrc) as [Hin Hanc].
    split; [exact Hin|]. eapply ancestor_snoc; [exact Hanc|].
    exists c. auto.
Qed.

Lemma getAllChildren_complete state fuel i r :
  unique_ids state ->
  getAllChildren fuel state i = Some r ->
  forall x, descendant state i x -> In x r.
Proof.
  intros Hu. revert i r.
  induction fuel as [|fuel IH]; intros i r H x [Hin Hanc]; [discriminate|].
  apply getAllChildren_level in H. destruct H as [rs [HF Hr]]. subst r.
  apply ancestor_last in Hanc. destruct Hanc as [y [Hy [Hyp Hor]]].
  assert (Hyc : In y (getChildren state i)) by (apply getChildren_In; auto).
  apply in_or_app. destruct Hor as [Hid|Hanc].
  - left. rewrite (unique_ids_inj state x y Hu Hin Hy (eq_sym Hid)). exact Hyc.
  - right. destruct (Forall2_In_l _ _ _ y HF Hyc) as [rc [Hrc Hcall]].
    apply in_concat. exists rc. split; [exact Hrc|].
    apply (IH _ _ Hcall). split; assumption.
Qed.

(** *** No descendant is listed twice *)

Lemma parent_of_functional state c p p' :
  unique_ids state -> parent_of state c p -> parent_of state c p' -> p = p'.
Proof.
  intros Hu [x [Hx [Hxi Hxp]]] [y [Hy [Hyi Hyp]]].
  assert (E : x = y) by (apply (unique_ids_inj state x y Hu Hx Hy); congruence).
  subst y. congruence.
Qed.

(** Two nodes with the same parent are not above one another. *)
Lemma siblings_unrelated state a b i :
  unique_ids state -> acyclic state ->
  parent_of state a i -> parent_of state b i -> ~ ancestor state a b.
Proof.
  intros Hu Hac Ha Hb Hab. inversion Hab as [? ? H | ? p ? H Hrest]; subst.
  - assert (E : b = i) by (eapply parent_of_functional; eauto). subst b.
    apply (Hac i). apply ancestor_parent. exact Hb.
  - assert (E : p = i) by (eapply parent_of_functional; eauto). subst p.
    apply (Hac i). eapply ancestor_snoc; eauto.
Qed.

(** Under unique ids the ancestors of an id are linearly ordered. *)
Lemma ancestor_linear state x a b :
  unique_ids state ->
  ancestor state x a -> ancestor state x b ->
  a = b \/ ancestor state a b \/ ancestor state b a.
Proof.
  intros Hu Ha. revert b.
  induction Ha as [x a Hxa | x p a Hxp Hpa IH]; intros b Hb;
    inversion Hb as [? ? H | ? q ? H Hrest]; subst.
  - left. eapply parent_of_functional; eauto.
  - assert (E : q = a) by (eapply parent_of_functional; eauto). subst q. auto.
  - assert (E : b = p) by (eapply parent_of_functional; eauto). subst b. auto.
  - assert (E : q = p) by (eapply parent_of_functional; eauto). subst q. auto.
Qed.

(** The descendants of two different children of one node are disjoint. *)
Lemma subtrees_disjoint state fuel i cs rs :
  unique_ids state -> acyclic state ->
  Forall2 (fun c rc => getAllChildren fuel state (id c) = Some rc) cs rs ->
  NoDup cs ->
  (forall c, In c cs -> In c (items state) /\ parent_of state (id c) i) ->
  ForallOrdPairs (fun l1 l2 : list TreeNode => forall a, In a l1 -> ~ In a l2) rs.
Proof.
  intros Hu Hac HF.
  induction HF as [|c rc cs rs Hc HF' IHF]; intros Hnd Hchild; constructor.
  - rewrite Forall_forall. intros rc' Hrc' x Hx Hx'.
    destruct (Forall2_In_r _ _ _ rc' HF' Hrc') as [c' [Hc' Hcall']].
    pose proof (getAllChildren_sound _ _ _ _ Hc x Hx) as [_ Hxc].
    pose proof (getAllChildren_sound _ _ _ _ Hcall' x Hx') as [_ Hxc'].
    destruct (Hchild c (or_introl eq_refl)) as [Hcin Hcp].
    destruct (Hchild c' (or_intror Hc')) as [Hcin' Hcp'].
    inversion Hnd as [|? ? Hnotin _]; subst.
    destruct (ancestor_linear _ _ _ _ Hu Hxc Hxc') as [E|[E|E]].
    + apply Hnotin.
      rewrite (unique_ids_inj state c c' Hu Hcin Hcin' E). exact Hc'.
    + exact (siblings_unrelated _ _ _ _ Hu Hac Hcp Hcp' E).
    + exact (siblings_unrelated _ _ _ _ Hu Hac Hcp' Hcp E).
  - apply IHF.
    + inversion Hnd; assumption.
    + intros c' Hc'. apply Hchild. right. exact Hc'.
Qed.

Lemma getAllChildren_NoDup state fuel i r :
  forest state -> getAllChildren fuel state i = Some r -> NoDup r.
Proof.
  intros [Hu Hr Hac]. revert i r.
  induction fuel as [|fuel IH]; intros i r H; [discriminate|].
  apply getAllChildren_level in H. destruct H as [rs [HF Heq]]. subst r.
  assert (Hchild : forall c, In c (getChildren state i) ->
                             In c (items state) /\ parent_of state (id c) i).
  { intros c Hc. apply getChildren_In in Hc. destruct Hc as [Hin Hp].
    split; [exact Hin|]. exists c. auto. }
  assert (Hnd : NoDup (getChildren state i)).
  { unfold getChildren. apply NoDup_filter. eapply NoDup_map_inv. exact Hu. }
  apply NoDup_app.
  - exact Hnd.
  - apply NoDup_concat.
    + rewrite Forall_forall. intros rc Hrc.
      destruct (Forall2_In_r _ _ _ rc HF Hrc) as [c [_ Hcall]].
      eapply IH; eauto.
    + eapply subtrees_disjoint; eauto.
  - intros x Hx Hx'. apply in_concat in Hx'. destruct Hx' as [rc [Hrc Hxrc]].
    destruct (Forall2_In_r _ _ _ rc HF Hrc) as [c [Hc Hcall]].
    pose proof (getAllChildren_sound _ _ _ _ Hcall x Hxrc) as [_ Hxc].
    destruct (Hchild x Hx) as [_ Hxp]. destruct (Hchild c Hc) as [_ Hcp].
    exact (siblings_unrelated _ _ _ _ Hu Hac Hxp Hcp Hxc).
Qed.

Lemma getAllChildren_length state fuel i r :
  forest state -> getAllChildren fuel state i = Some r ->
  List.length r <= List.length (items state).
Proof.
  intros Hf H. apply NoDup_incl_length.
  - eapply getAllChildren_NoDup; eauto.
  - intros x Hx. apply (getAllChildren_sound _ _ _ _ H x Hx).
Qed.

(** ** Lemmas on the actions *)

Lemma filter_twice {A : Type} (f g : A -> bool) (l : list A) :
  filter f (filter g l) = filter (fun x => g x && f x) l.
Proof.
  induction l as [|a l IH]; simpl; [reflexivity|].
  destruct (g a); simpl; [destruct (f a)|]; rewrite IH; reflexivity.
Qed.

(** The loop of [removeItem] that filters the descendants out one by one
    amounts to one filter. *)
Lemma forEach_filter (l : list TreeNode) (state : TreeState) :
  forEach l
    (fun child =>
       its <- read items ;;
       assign_items
         (filter (fun item => negb (String.eqb (id item) (id child))) its)) state
  = Returned tt
      {| items := filter (fun item =>
                            negb (existsb (fun child =>
                                             String.eqb (id item) (id child)) l))
                         (items state) |}.
Proof.
  revert state. induction l as [|c l IH]; intros [its]; simpl.
  - unfold ret. f_equal. f_equal. induction its as [|a its IHi]; simpl; congruence.
  - unfold bind at 1. unfold bind at 1. unfold read, assign_items.
    rewrite IH. simpl. rewrite filter_twice. f_equal. f_equal.
    apply filter_ext. intros a. rewrite negb_orb. reflexivity.
Qed.

Lemma removeItem_found state fuel i n allChildren :
  getItemById state i = Some n ->
  getAllChildren fuel state i = Some allChildren ->
  removeItem fuel i state
  = Returned tt
      {| items := filter (fun item => negb (removed i allChildren item))
                         (items state) |}.
Proof.
  intros Hn Hc. unfold removeItem, bind at 1, read. rewrite Hn.
  unfold bind at 1, call. rewrite Hc.
  unfold bind at 1. rewrite forEach_filter.
  unfold bind, read, assign_items. simpl. rewrite filter_twice.
  f_equal. f_equal. apply filter_ext. intros a. unfold removed.
  rewrite negb_orb. apply andb_comm.
Qed.

Lemma removeItem_not_found state fuel i :
  getItemById state i = None ->
  removeItem fuel i state = Threw (NotFoundError i) state.
Proof.
  intros Hn. unfold removeItem, bind, read. rewrite Hn. reflexivity.
Qed.

Lemma removed_descendant state fuel i allChildren x :
  unique_ids state ->
  getAllChildren fuel state i = Some allChildren ->
  In x (items state) ->
  removed i allChildren x = false <-> id x <> i /\ ~ descendant state i x.
Proof.
  intros Hu Hc Hin. unfold removed. rewrite orb_false_iff.
  rewrite String.eqb_neq. split; intros [H1 H2]; (split; [exact H1|]).
  - intros Hd. apply (getAllChildren_complete _ _ _ _ Hu Hc) in Hd.
    assert (E : existsb (fun child => String.eqb (id x) (id child)) allChildren
                = true).
    { apply existsb_exists. exists x. split; [exact Hd|apply String.eqb_refl]. }
    congruence.
  - destruct (existsb _ allChildren) eqn:E; [|reflexivity].
    exfalso. apply H2. apply existsb_exists in E. destruct E as [d [Hd Heq]].
    apply String.eqb_eq in Heq.
    pose proof (getAllChildren_sound _ _ _ _ Hc d Hd) as Hdd.
    rewrite (unique_ids_inj state x d Hu Hin (proj1 Hdd) Heq). exact Hdd.
Qed.

(** *** [addItem], case by case *)

Lemma addItem_duplicate state item n :
  getItemById state (id (normalize item)) = Some n ->
  addItem item state = Threw (DuplicateIdError (id (normalize item))) state.
Proof.
  intros H. unfold addItem, bind, read. rewrite H. reflexivity.
Qed.

Lemma addItem_parent_missing state item p :
  getItemById state (id (normalize item)) = None ->
  parent (normalize item) = Some p ->
  getItemById state p = None ->
  addItem item state = Threw (ParentNotFoundError p) state.
Proof.
  intros H Hp Hnone. unfold addItem, bind at 1, read. rewrite H, Hp.
  unfold bind, read. rewrite Hnone. reflexivity.
Qed.

Lemma addItem_root state item :
  getItemById state (id (normalize item)) = None ->
  parent (normalize item) = None ->
  addItem item state
  = Returned tt {| items := items state ++ [normalize item] |}.
Proof.
  intros H Hp. unfold addItem, bind at 1, read. rewrite H, Hp. reflexivity.
Qed.

Lemma addItem_child state item p y :
  getItemById state (id (normalize item)) = None ->
  parent (normalize item) = Some p ->
  getItemById state p = Some y ->
  addItem item state
  = Returned tt {| items := items state ++ [normalize item] |}.
Proof.
  intros H Hp Hy. unfold addItem, bind at 1, read. rewrite H, Hp.
  unfold bind, read. rewrite Hy. reflexivity.
Qed.

(** What a successful [addItem] has checked. *)
Lemma addItem_Returned state item state' :
  addItem item state = Returned tt state' ->
  getItemById state (id (normalize item)) = None /\
  (forall p, parent (normalize item) = Some p ->
             exists y, getItemById state p = Some y) /\
  state' = {| items := items state ++ [normalize item] |}.
Proof.
  intros H.
  destruct (getItemById state (id (normalize item))) as [n|] eqn:E.
  { rewrite (addItem_duplicate _ _ _ E) in H. discriminate. }
  destruct (parent (normalize item)) as [p|] eqn:Ep.
  - destruct (getItemById state p) as [y|] eqn:Ey.
    + rewrite (addItem_child _ _ _ _ E Ep Ey) in H. inversion H.
      split; [reflexivity|]. split; [|reflexivity].
      intros p' Hp'. inversion Hp'; subst p'. eauto.
    + rewrite (addItem_parent_missing _ _ _ E Ep Ey) in H. discriminate.
  - rewrite (addItem_root _ _ E Ep) in H. inversion H.
    split; [reflexivity|]. split; [|reflexivity]. intros p' Hp'. discriminate.
Qed.

(** ** Preservation of the invariant by [addItem] and [removeItem] *)

Lemma NoDup_snoc {A : Type} (l : list A) (a : A) :
  NoDup l -> ~ In a l -> NoDup (l ++ [a]).
Proof.
  induction l as [|b l IH]; simpl; intros Hnd Hnin.
  - constructor; [intros []|constructor].
  - inversion Hnd as [|? ? Hb Hl]; subst. constructor.
    + intros Hin. apply in_app_or in Hin. destruct Hin as [Hin|[->|[]]]; tauto.
    + apply IH; tauto.
Qed.

Lemma NoDup_map_filter {A B : Type} (f : A -> B) (g : A -> bool) (l : list A) :
  NoDup (map f l) -> NoDup (map f (filter g l)).
Proof.
  induction l as [|a l IH]; simpl; intros Hnd; [constructor|].
  inversion Hnd as [|? ? Ha Hl]; subst.
  destruct (g a); simpl; [|auto]. constructor; [|auto].
  intros Hin. apply Ha. apply in_map_iff in Hin.
  destruct Hin as [x [Hx Hin]]. apply filter_In in Hin.
  rewrite <- Hx. apply in_map. tauto.
Qed.

(** In a collection whose parents resolve, every ancestor is the id of a
    node. *)
Lemma ancestor_target_In state c a :
  parents_resolve state -> ancestor state c a -> In a (map id (items state)).
Proof.
  intros Hr. induction 1 as [c p [x [Hin [_ Hp]]] | c p a _ _ IH]; [|exact IH].
  destruct (Hr x p Hin Hp) as [y [Hy Hyp]]. subst p. apply in_map. exact Hy.
Qed.

(** Parent links only shrink when nodes are taken out. *)
Lemma ancestor_incl state state' c a :
  incl (items state') (items state) ->
  ancestor state' c a -> ancestor state c a.
Proof.
  intros Hincl.
  assert (Hp : forall c p, parent_of state' c p -> parent_of state c p).
  { intros c' p [x [Hin H]]. exists x. split; [apply Hincl; exact Hin|exact H]. }
  induction 1 as [c p H | c p a H _ IH].
  - apply ancestor_parent. auto.
  - eapply ancestor_step; eauto.
Qed.

Lemma addItem_preserves_forest state item state' :
  forest state ->
  addItem item state = Returned tt state' ->
  forest state'.
Proof.
  intros [Hu Hr Hac] H. apply addItem_Returned in H.
  destruct H as [Hfresh [Hpar ->]]. set (n := normalize item) in *.
  apply getItemById_None in Hfresh.
  assert (Hr' : parents_resolve {| items := items state ++ [n] |}).
  { intros x p Hin Hp. simpl in Hin. apply in_app_or in Hin.
    destruct Hin as [Hin|[<-|[]]].
    - destruct (Hr x p Hin Hp) as [y [Hy Hyp]]. exists y. simpl.
      split; [apply in_or_app; auto|exact Hyp].
    - destruct (Hpar p Hp) as [y Hy]. apply getItemById_Some in Hy.
      exists y. simpl. split; [apply in_or_app; tauto|tauto]. }
  assert (Hold : forall c p, parent_of {| items := items state ++ [n] |} c p ->
                             In p (map id (items state)) /\
                             (c <> id n -> parent_of state c p)).
  { intros c p [x [Hin [Hid Hp]]]. simpl in Hin. apply in_app_or in Hin.
    destruct Hin as [Hin|[<-|[]]].
    - split.
      + destruct (Hr x p Hin Hp) as [y [Hy Hyp]]. subst p. apply in_map. exact Hy.
      + intros _. exists x. auto.
    - split.
      + destruct (Hpar p Hp) as [y Hy]. apply getItemById_Some in Hy.
        destruct Hy as [Hy Hyp]. subst p. apply in_map. exact Hy.
      + intros Hne. congruence. }
  split.
  - unfold unique_ids. simpl. rewrite map_app. simpl.
    apply NoDup_snoc; assumption.
  - exact Hr'.
  - assert (Hanc : forall c a, ancestor {| items := items state ++ [n] |} c a ->
                               c <> id n -> ancestor state c a).
    { induction 1 as [c p H | c p a H _ IH]; intros Hne.
      - apply ancestor_parent. apply Hold; assumption.
      - destruct (Hold c p H) as [Hpin Hpo].
        eapply ancestor_step; [apply Hpo; exact Hne|]. apply IH.
        intros ->. contradiction. }
    assert (Htgt : forall c a, ancestor {| items := items state ++ [n] |} c a ->
                               In a (map id (items state))).
    { induction 1 as [c p H | c p a _ _ IH]; [|exact IH]. apply (Hold c p H). }
    intros c Hc. apply (Hac c). apply Hanc; [exact Hc|].
    intros Heq. apply Hfresh. rewrite <- Heq. exact (Htgt c c Hc).
Qed.

Lemma removeItem_preserves_forest state fuel i state' :
  forest state ->
  removeItem fuel i state = Returned tt state' ->
  forest state'.
Proof.
  intros [Hu Hr Hac] H.
  destruct (getItemById state i) as [n|] eqn:En;
    [|rewrite (removeItem_not_found _ _ _ En) in H; discriminate].
  destruct (getAllChildren fuel state i) as [allChildren|] eqn:Ec.
  2:{ unfold removeItem, bind at 1, read in H. rewrite En in H.
      unfold bind at 1, call in H. rewrite Ec in H. discriminate. }
  rewrite (removeItem_found _ _ _ _ _ En Ec) in H. inversion H; subst state'.
  clear H.
  assert (Hincl : incl (items {| items := filter (fun item =>
                          negb (removed i allChildren item)) (items state) |})
                       (items state)).
  { intros x Hx. simpl in Hx. apply filter_In in Hx. tauto. }
  split.
  - unfold unique_ids. simpl. apply NoDup_map_filter. exact Hu.
  - intros x p Hin Hp. simpl in Hin. apply filter_In in Hin.
    destruct Hin as [Hin Hkeep]. apply negb_true_iff in Hkeep.
    apply (removed_descendant _ _ _ _ _ Hu Ec Hin) in Hkeep.
    destruct Hkeep as [Hne Hnd].
    destruct (Hr x p Hin Hp) as [y [Hy Hyp]]. exists y. split; [|exact Hyp].
    simpl. apply filter_In. split; [exact Hy|]. apply negb_true_iff.
    apply (removed_descendant _ _ _ _ _ Hu Ec Hy).
    assert (Hxy : parent_of state (id x) (id y)).
    { exists x. subst p. auto. }
    split.
    + intros Heq. apply Hnd. split; [exact Hin|]. rewrite <- Heq.
      apply ancestor_parent. exact Hxy.
    + intros [_ Hya]. apply Hnd. split; [exact Hin|].
      eapply ancestor_step; eauto.
  - intros c Hc. apply (Hac c). eapply ancestor_incl; eauto.
Qed.

(** *** [updateItem], case by case *)

Lemma updateItem_not_found state fuel u :
  getItemById state (id (normalize u)) = None ->
  updateItem fuel u state = Threw (NotFoundError (id (normalize u))) state.
Proof.
  intros H. unfold updateItem, bind, read. rewrite H. reflexivity.
Qed.

Lemma updateItem_to_root state fuel u e :
  getItemById state (id (normalize u)) = Some e ->
  parent (normalize u) = None ->
  updateItem fuel u state
  = Returned tt {| items := replace_by_id (normalize u) (items state) |}.
Proof.
  intros H Hp. unfold updateItem, bind at 1, read. rewrite H, Hp. reflexivity.
Qed.

Lemma updateItem_same_parent state fuel u e :
  getItemById state (id (normalize u)) = Some e ->
  parent (normalize u) = parent e ->
  updateItem fuel u state
  = Returned tt {| items := replace_by_id (normalize u) (items state) |}.
Proof.
  intros H Hp. unfold updateItem, bind at 1, read. rewrite H.
  destruct (parent (normalize u)) as [p|] eqn:Ep; [|reflexivity].
  rewrite <- Hp. simpl. rewrite String.eqb_refl. reflexivity.
Qed.

Lemma updateItem_new_parent_missing state fuel u e p :
  getItemById state (id (normalize u)) = Some e ->
  parent (normalize u) = Some p ->
  parent e <> Some p ->
  getItemById state p = None ->
  updateItem fuel u state = Threw (NewParentNotFoundError p) state.
Proof.
  intros H Hp Hne Hnone. unfold updateItem, bind at 1, read. rewrite H, Hp.
  destruct (parent_eqb (Some p) (parent e)) eqn:E.
  { apply parent_eqb_eq in E. congruence. }
  simpl. unfold bind, read. rewrite Hnone. reflexivity.
Qed.

Lemma updateItem_checked state fuel u e p y allParents :
  getItemById state (id (normalize u)) = Some e ->
  parent (normalize u) = Some p ->
  parent e <> Some p ->
  getItemById state p = Some y ->
  getAllParents fuel state (id e) = Some allParents ->
  updateItem fuel u state
  = if existsb (fun par => String.eqb (id par) p) allParents
    then Threw CycleError state
    else Returned tt {| items := replace_by_id (normalize u) (items state) |}.
Proof.
  intros H Hp Hne Hy Hall. unfold updateItem, bind at 1, read. rewrite H, Hp.
  destruct (parent_eqb (Some p) (parent e)) eqn:E.
  { apply parent_eqb_eq in E. congruence. }
  simpl. unfold bind at 1. unfold bind at 1, read. rewrite Hy.
  unfold bind at 1, call. rewrite Hall.
  destruct (existsb _ allParents); reflexivity.
Qed.

Lemma updateItem_out_of_fuel state fuel u e p y :
  getItemById state (id (normalize u)) = Some e ->
  parent (normalize u) = Some p ->
  parent e <> Some p ->
  getItemById state p = Some y ->
  getAllParents fuel state (id e) = None ->
  updateItem fuel u state = OutOfFuel.
Proof.
  intros H Hp Hne Hy Hall. unfold updateItem, bind at 1, read. rewrite H, Hp.
  destruct (parent_eqb (Some p) (parent e)) eqn:E.
  { apply parent_eqb_eq in E. congruence. }
  simpl. unfold bind at 1. unfold bind at 1, read. rewrite Hy.
  unfold bind at 1, call. rewrite Hall. reflexivity.
Qed.

(** A successful [updateItem] has run the final [map] on the collection
    it started from. *)
Lemma updateItem_Returned state fuel u state' :
  updateItem fuel u state = Returned tt state' ->
  state' = {| items := replace_by_id (normalize u) (items state) |}.
Proof.
  intros H.
  destruct (getItemById state (id (normalize u))) as [e|] eqn:Ee;
    [|rewrite (updateItem_not_found _ _ _ Ee) in H; discriminate].
  destruct (parent (normalize u)) as [p|] eqn:Ep;
    [|rewrite (updateItem_to_root _ _ _ _ Ee Ep) in H; congruence].
  destruct (parent_eqb (Some p) (parent e)) eqn:Eq.
  { apply parent_eqb_eq in Eq. rewrite <- Ep in Eq.
    rewrite (updateItem_same_parent _ _ _ _ Ee Eq) in H. congruence. }
  assert (Hne : parent e <> Some p).
  { intros Heq. rewrite Heq in Eq. simpl in Eq. rewrite String.eqb_refl in Eq.
    discriminate. }
  destruct (getItemById state p) as [y|] eqn:Ey;
    [|rewrite (updateItem_new_parent_missing _ _ _ _ _ Ee Ep Hne Ey) in H;
      discriminate].
  destruct (getAllParents fuel state (id e)) as [allParents|] eqn:Ea;
    [|rewrite (updateItem_out_of_fuel _ _ _ _ _ _ Ee Ep Hne Ey Ea) in H;
      discriminate].
  rewrite (updateItem_checked _ _ _ _ _ _ _ Ee Ep Hne Ey Ea) in H.
  destruct (existsb _ allParents); [discriminate|congruence].
Qed.

(** When the parent changes to a non-null value that names a node,
    [updateItem] throws the cycle error exactly when that value is the id
    of a member of [getAllParents] of the node. *)
Lemma updateItem_CycleError_iff state fuel u e p y allParents :
  getItemById state (id (normalize u)) = Some e ->
  parent (normalize u) = Some p ->
  parent e <> Some p ->
  getItemById state p = Some y ->
  getAllParents fuel state (id e) = Some allParents ->
  updateItem fuel u state = Threw CycleError state
  <-> exists a, In a allParents /\ id a = p.
Proof.
  intros He Hp Hne Hy Ha.
  rewrite (updateItem_checked _ _ _ _ _ _ _ He Hp Hne Hy Ha).
  destruct (existsb _ allParents) eqn:E.
  - split; [intros _|reflexivity]. apply existsb_exists in E.
    destruct E as [a [Hin Heq]]. apply String.eqb_eq in Heq. eauto.
  - split; [discriminate|]. intros [a [Hin Heq]]. exfalso.
    assert (E' : existsb (fun par => String.eqb (id par) p) allParents = true).
    { apply existsb_exists. exists a. split; [exact Hin|].
      apply String.eqb_eq. exact Heq. }
    congruence.
Qed.

(** [updateItem] keeps ids unique and parent references resolved; what it
    does not keep is the absence of cycles. *)
Lemma replace_by_id_ids n its :
  map id (replace_by_id n its) = map id its.
Proof.
  unfold replace_by_id. rewrite map_map. apply map_ext_in. intros a _.
  destruct (String.eqb (id a) (id n)) eqn:E; [|reflexivity].
  apply String.eqb_eq in E. congruence.
Qed.

Lemma updateItem_preserves_unique_ids state fuel u state' :
  unique_ids state ->
  updateItem fuel u state = Returned tt state' ->
  unique_ids state'.
Proof.
  intros Hu H. apply updateItem_Returned in H. subst state'.
  unfold unique_ids. simpl. rewrite replace_by_id_ids. exact Hu.
Qed.

(** What a successful [updateItem] has checked about the new parent. *)
Lemma updateItem_Returned_parent state fuel u state' :
  parents_resolve state ->
  updateItem fuel u state = Returned tt state' ->
  forall p, parent (normalize u) = Some p ->
            exists y, In y (items state) /\ id y = p.
Proof.
  intros Hr H p Hp.
  destruct (getItemById state (id (normalize u))) as [e|] eqn:Ee;
    [|rewrite (updateItem_not_found _ _ _ Ee) in H; discriminate].
  destruct (parent_eqb (Some p) (parent e)) eqn:Eq.
  { apply parent_eqb_eq in Eq. apply getItemById_Some in Ee.
    apply (Hr e p (proj1 Ee)). congruence. }
  assert (Hne : parent e <> Some p).
  { intros Heq. rewrite Heq in Eq. simpl in Eq. rewrite String.eqb_refl in Eq.
    discriminate. }
  destruct (getItemById state p) as [y|] eqn:Ey.
  - apply getItemById_Some in Ey. exists y. exact Ey.
  - rewrite (updateItem_new_parent_missing _ _ _ _ _ Ee Hp Hne Ey) in H.
    discriminate.
Qed.

Lemma updateItem_preserves_parents_resolve state fuel u state' :
  parents_resolve state ->
  updateItem fuel u state = Returned tt state' ->
  parents_resolve state'.
Proof.
  intros Hr H. pose proof (updateItem_Returned_parent _ _ _ _ Hr H) as Hnew.
  apply updateItem_Returned in H. subst state'.
  set (n := normalize u) in *.
  assert (Hkeep : forall y, In y (items state) ->
            exists y', In y' (replace_by_id n (items state)) /\ id y' = id y).
  { intros y Hy.
    exists (if String.eqb (id y) (id n) then n else y). split.
    - unfold replace_by_id. apply in_map_iff. exists y. auto.
    - destruct (String.eqb (id y) (id n)) eqn:E; [|reflexivity].
      apply String.eqb_eq in E. congruence. }
  intros x p Hin Hp. cbn [items] in *. unfold replace_by_id in Hin.
  apply in_map_iff in Hin. destruct Hin as [x0 [Hx Hx0]].
  assert (Hres : exists y, In y (items state) /\ id y = p).
  { destruct (String.eqb (id x0) (id n)); subst x.
    - apply Hnew. exact Hp.
    - apply (Hr x0 p Hx0 Hp). }
  destruct Hres as [y [Hy Hyp]]. destruct (Hkeep y Hy) as [y' [Hy' Hid]].
  exists y'. split; [exact Hy'|congruence].
Qed.

(** Under the forest invariant the cycle check never rejects a
    descendant of the node as its new parent. *)
Lemma updateItem_descendant_always_accepted state u e p d :
  forest state ->
  getItemById state (id (normalize u)) = Some e ->
  parent (normalize u) = Some p ->
  descendant state (id e) d -> id d = p ->
  forall fuel, List.length (items state) < fuel ->
    updateItem fuel u state
    = Returned tt {| items := replace_by_id (normalize u) (items state) |}.
Proof.
  intros [Hu Hr Hac] He Hp [Hd Hanc] Hid fuel Hlt.
  destruct (getItemById_In state d Hd) as [y Hy]. rewrite Hid in Hy.
  assert (Hne : parent e <> Some p).
  { intros Heq. apply (Hac (id e)). eapply ancestor_trans; [|exact Hanc].
    apply ancestor_parent. apply getItemById_Some in He.
    exists e. rewrite Hid. tauto. }
  destruct (getAllParents_terminates state (id e) Hac) as [allParents Ha].
  assert (Ha' : getAllParents fuel state (id e) = Some allParents).
  { eapply getAllParents_mono; [exact Ha|lia]. }
  rewrite (updateItem_checked _ _ _ _ _ _ _ He Hp Hne Hy Ha').
  destruct (existsb _ allParents) eqn:E; [|reflexivity].
  exfalso. apply existsb_exists in E. destruct E as [a [Hin Heq]].
  apply String.eqb_eq in Heq.
  pose proof (ancestor_chain_ancestor _ _ _ (getAllParents_sound _ _ _ _ Ha'))
    as Hall.
  rewrite Forall_forall in Hall. destruct (Hall a Hin) as [_ Hea].
  apply (Hac (id e)). eapply ancestor_trans; [exact Hea|].
  rewrite Heq, <- Hid. exact Hanc.
Qed.

(** *** Errors are thrown before any mutation *)

Lemma addItem_Threw state item e s :
  addItem item state = Threw e s -> s = state.
Proof.
  unfold addItem, bind at 1, read.
  destruct (getItemById state (id (normalize item))) as [n|].
  { unfold throw. congruence. }
  destruct (parent (normalize item)) as [p|]; [|discriminate].
  unfold bind at 1. unfold bind at 1, read.
  destruct (getItemById state p) as [y|]; [discriminate|].
  unfold throw. congruence.
Qed.

Lemma removeItem_Threw state fuel i e s :
  removeItem fuel i state = Threw e s -> s = state.
Proof.
  destruct (getItemById state i) as [n|] eqn:En.
  - destruct (getAllChildren fuel state i) as [allChildren|] eqn:Ec.
    + rewrite (removeItem_found _ _ _ _ _ En Ec). discriminate.
    + unfold removeItem, bind at 1, read. rewrite En.
      unfold bind at 1, call. rewrite Ec. discriminate.
  - rewrite (removeItem_not_found _ _ _ En). congruence.
Qed.

Lemma updateItem_Threw state fuel u e s :
  updateItem fuel u state = Threw e s -> s = state.
Proof.
  destruct (getItemById state (id (normalize u))) as [x|] eqn:Ex;
    [|rewrite (updateItem_not_found _ _ _ Ex); congruence].
  destruct (parent (normalize u)) as [p|] eqn:Ep;
    [|rewrite (updateItem_to_root _ _ _ _ Ex Ep); discriminate].
  destruct (parent_eqb (Some p) (parent x)) eqn:Eq.
  { apply parent_eqb_eq in Eq. rewrite <- Ep in Eq.
    rewrite (updateItem_same_parent _ _ _ _ Ex Eq). discriminate. }
  assert (Hne : parent x <> Some p).
  { intros Heq. rewrite Heq in Eq. simpl in Eq. rewrite String.eqb_refl in Eq.
    discriminate. }
  destruct (getItemById state p) as [y|] eqn:Ey;
    [|rewrite (updateItem_new_parent_missing _ _ _ _ _ Ex Ep Hne Ey);
      congruence].
  destruct (getAllParents fuel state (id x)) as [allParents|] eqn:Ea;
    [|rewrite (updateItem_out_of_fuel _ _ _ _ _ _ Ex Ep Hne Ey Ea);
      discriminate].
  rewrite (updateItem_checked _ _ _ _ _ _ _ Ex Ep Hne Ey Ea).
  destruct (existsb _ allParents); [congruence|discriminate].
Qed.

(** * The claims *)

(** ** Preservation of the invariant *)

(** C1. On the three-node chain of the specification's scenario, which
    satisfies the forest invariant, [updateItem] that moves the root
    under its grandchild returns normally and leaves a collection in
    which node 1 is its own ancestor: the invariant is not preserved by
    [updateItem]. ([addItem_preserves_forest] and
    [removeItem_preserves_forest] show that the other two operations do
    preserve it.) *)
Theorem updateItem_breaks_forest :
  forest chain3 /\
  forall fuel,
    updateItem (S fuel) (mkRawItem (RStr "1") (Some (RStr "3")) "Root") chain3
    = Returned tt
        {| items := [node "1" (Some "3") "Root"; node "2" (Some "1") "A";
                     node "3" (Some "2") "B"] |}
    /\ ~ forest {| items := [node "1" (Some "3") "Root";
                              node "2" (Some "1") "A";
                              node "3" (Some "2") "B"] |}.
Proof.
  split; [apply forestb_sound; reflexivity|].
  intros fuel. split; [reflexivity|].
  intros [_ _ Hac]. apply (Hac "1").
  apply ancestor_step with (p := "3").
  { exists (node "1" (Some "3") "Root"). simpl. auto. }
  apply ancestor_step with (p := "2").
  { exists (node "3" (Some "2") "B"). simpl. auto. }
  apply ancestor_parent.
  exists (node "2" (Some "1") "A"). simpl. auto.
Qed.

(** ** The cycle check of [updateItem] *)

(** C2. On the store of the test "should throw error when creating
    circular dependency" (root 1 with child 2), node 2 is a descendant of
    node 1, and [updateItem] with id 1 and new parent 2 does not fail
    with the cycle error: it returns normally with the collection
    changed. *)
Theorem updateItem_accepts_descendant_as_parent :
  forest root_child /\
  getAllChildren 3 root_child "1" = Some [node "2" (Some "1") "Child"] /\
  forall fuel,
    updateItem (S fuel) (mkRawItem (RStr "1") (Some (RStr "2")) "Root")
               root_child
    = Returned tt
        {| items := [node "1" (Some "2") "Root"; node "2" (Some "1") "Child"] |}.
Proof.
  split; [apply forestb_sound; reflexivity|].
  split; [reflexivity|]. intros fuel. reflexivity.
Qed.

(** C3. On a store with the single root 1, [updateItem] with id 1 and new
    parent 1 (non-null, different from the current parent null, and equal
    to the node's own id) does not fail with the cycle error: it returns
    normally and makes the node its own parent. *)
Theorem updateItem_accepts_self_as_parent :
  forest solo /\
  getItemById solo "1" = Some (node "1" None "Root") /\
  forall fuel,
    getAllParents (S fuel) solo "1" = Some [] /\
    updateItem (S fuel) (mkRawItem (RStr "1") (Some (RStr "1")) "Root") solo
    = Returned tt {| items := [node "1" (Some "1") "Root"] |}.
Proof.
  split; [apply forestb_sound; reflexivity|].
  split; [reflexivity|]. intros fuel. split; reflexivity.
Qed.

(** ** Order of [getAllChildren] *)

(** C4, counterexample. On the five-node store of the test of
    [getAllChildren] the result is 2, 3, 4, 5, whereas pre-order is
    2, 4, 5, 3. *)
Lemma getAllChildren_not_preorder : ~ returns_preorder family5 "1".
Proof.
  intros H. specialize (H (forestb_sound family5 eq_refl) 6).
  simpl in H. specialize (H (le_n 6)). vm_compute in H. discriminate H.
Qed.

(** C4, amended. For every collection satisfying the forest invariant
    and every id, [getAllChildren] returns all the direct children, in
    [getChildren] order, followed by the [getAllChildren] sequence of
    the first direct child, then that of the second, and so on. *)
Theorem getAllChildren_children_first state i :
  forest state ->
  exists r rs,
    (forall fuel, List.length (items state) < fuel ->
                  getAllChildren fuel state i = Some r) /\
    Forall2 (fun c rc =>
               forall fuel, List.length (items state) < fuel ->
                            getAllChildren fuel state (id c) = Some rc)
            (getChildren state i) rs /\
    r = getChildren state i ++ List.concat rs.
Proof.
  intros [_ _ Hac].
  destruct (getAllChildren_terminates state i Hac) as [r Hr].
  pose proof Hr as Hlevel. apply getAllChildren_level in Hlevel.
  destruct Hlevel as [rs [HF Heq]]. exists r, rs.
  split; [|split; [|exact Heq]].
  - intros fuel Hlt. eapply getAllChildren_mono; [exact Hr|lia].
  - eapply Forall2_impl; [|exact HF]. intros c rc Hc fuel Hlt.
    eapply getAllChildren_mono; [exact Hc|lia].
Qed.

Lemma getAllChildren_children_first_witness :
  exists r rs,
    (forall fuel, List.length (items family5) < fuel ->
                  getAllChildren fuel family5 "1" = Some r) /\
    Forall2 (fun c rc =>
               forall fuel, List.length (items family5) < fuel ->
                            getAllChildren fuel family5 (id c) = Some rc)
            (getChildren family5 "1") rs /\
    r = getChildren family5 "1" ++ List.concat rs.
Proof.
  apply (getAllChildren_children_first family5 "1").
  apply forestb_sound. vm_compute. reflexivity.
Defined.

(** ** [removeItem] *)

(** C5. For every collection satisfying the forest invariant and every
    id of an existing node, [removeItem] returns normally; what is left
    is the original list filtered, in its order, to the nodes that are
    neither the node with that id nor a member of [getAllChildren] of
    it; the members of [getAllChildren] are exactly the transitive
    descendants, so a node stays exactly when it is neither the removed
    node nor a descendant of it. For an id that names no node,
    [removeItem] throws the not-found error and leaves the collection as
    it was. *)
Theorem removeItem_removes_subtree state i :
  (forest state ->
   forall n, getItemById state i = Some n ->
   exists allChildren,
     (forall fuel, List.length (items state) < fuel ->
        getAllChildren fuel state i = Some allChildren /\
        removeItem fuel i state
        = Returned tt
            {| items := filter (fun item => negb (removed i allChildren item))
                               (items state) |}) /\
     (forall x, In x allChildren <-> descendant state i x) /\
     (forall x,
        In x (filter (fun item => negb (removed i allChildren item))
                     (items state))
        <-> In x (items state) /\ id x <> i /\ ~ descendant state i x)) /\
  (getItemById state i = None ->
   forall fuel, removeItem fuel i state = Threw (NotFoundError i) state).
Proof.
  split; [|intros Hn fuel; apply removeItem_not_found; exact Hn].
  intros [Hu Hr Hac] n Hn.
  destruct (getAllChildren_terminates state i Hac) as [allChildren Hc].
  exists allChildren. split; [|split].
  - intros fuel Hlt.
    assert (Hc' : getAllChildren fuel state i = Some allChildren).
    { eapply getAllChildren_mono; [exact Hc|lia]. }
    split; [exact Hc'|]. eapply removeItem_found; eauto.
  - intros x. split.
    + apply (getAllChildren_sound _ _ _ _ Hc).
    + apply (getAllChildren_complete _ _ _ _ Hu Hc).
  - intros x. rewrite filter_In, negb_true_iff. split.
    + intros [Hin Hk]. split; [exact Hin|].
      apply (removed_descendant _ _ _ _ _ Hu Hc Hin). exact Hk.
    + intros [Hin Hk]. split; [exact Hin|].
      apply (removed_descendant _ _ _ _ _ Hu Hc Hin). exact Hk.
Qed.

Lemma removeItem_removes_subtree_witness :
  removeItem 4 "2" chain3 = Returned tt {| items := [node "1" None "Root"] |}
  /\ removeItem 4 "999" chain3 = Threw (NotFoundError "999") chain3.
Proof.
  destruct (removeItem_removes_subtree chain3 "2") as [Hfound _].
  destruct (removeItem_removes_subtree chain3 "999") as [_ Hmissing].
  split.
  - destruct (Hfound (forestb_sound chain3 eq_refl) (node "2" (Some "1") "A")
                     eq_refl) as [allChildren [Hrun _]].
    destruct (Hrun 4 (le_n 4)) as [Hc Hrem].
    rewrite Hrem. vm_compute in Hc. inversion Hc; subst allChildren.
    reflexivity.
  - apply Hmissing. reflexivity.
Defined.

(** ** [initialize] *)

Lemma normalize_normal_form r : normal_form r (normalize r).
Proof.
  unfold normal_form, normalize. simpl.
  split; [reflexivity|]. split; [reflexivity|].
  split; [intros ->; reflexivity|].
  split; intros p -> ->; reflexivity.
Qed.

Lemma find_map_normalize (raw : list RawItem) (s : string) :
  find (fun item => String.eqb (id item) s) (map normalize raw)
  = option_map normalize
      (find (fun r => String.eqb (js_String (raw_id r)) s) raw).
Proof.
  induction raw as [|r raw IH]; simpl; [reflexivity|].
  destruct (String.eqb (js_String (raw_id r)) s); [reflexivity|exact IH].
Qed.

Lemma find_first_NoDup {A : Type} (f : A -> string) (l : list A) (a : A) :
  NoDup (map f l) -> In a l ->
  find (fun x => String.eqb (f x) (f a)) l = Some a.
Proof.
  induction l as [|b l IH]; simpl; intros Hnd Hin; [contradiction|].
  inversion Hnd as [|? ? Hb Hl]; subst.
  destruct Hin as [->|Hin].
  - rewrite String.eqb_refl. reflexivity.
  - destruct (String.eqb (f b) (f a)) eqn:E; [|auto].
    apply String.eqb_eq in E. exfalso. apply Hb. rewrite E.
    apply in_map. exact Hin.
Qed.

(** C6, counterexample. With the inputs 0 (a number) as parent, and 1
    and "1" as ids of two elements, the round trip fails: the parent 0
    is stored as null, and [getItemById] on "1" returns the node of the
    first of the two elements. *)
Lemma initialize_roundtrip_fails : ~ roundtrip zero_parent /\ ~ roundtrip twin_ids.
Proof.
  split; intros H.
  - destruct (H {| items := [] |} _ eq_refl
                (mkRawItem (RNum 1) (Some (RNum 0)) "Child"))
      as [n [Hin [_ [Hp _]]]].
    { simpl. auto. }
    simpl in Hin, Hp. destruct Hin as [<-|[<-|[]]]; discriminate Hp.
  - destruct (H {| items := [] |} _ eq_refl (mkRawItem (RStr "1") None "Second"))
      as [n [_ [_ [_ [Hl Hg]]]]].
    { simpl. auto. }
    vm_compute in Hg. inversion Hg; subst n. discriminate Hl.
Qed.

(** C6, amended. For every input list, [initialize] returns normally and
    the collection then holds, at the position of each input element, a
    node whose id is the string form of the input id, whose label is the
    input label, and whose parent is null when the input parent is null,
    a falsy number (0 of either sign, NaN) or the empty string and the
    string form of the input parent otherwise; [getItemById] on a
    string returns the node of the first
    input element whose id has that string form, which is the node of
    each element itself when the string forms of the ids are pairwise
    distinct. *)
Theorem initialize_normalizes (raw : list RawItem) (state : TreeState) :
  exists state',
    initialize raw state = Returned tt state' /\
    List.length (items state') = List.length raw /\
    (forall k r, nth_error raw k = Some r ->
                 exists n, nth_error (items state') k = Some n /\
                           normal_form r n) /\
    (forall s,
        getItemById state' s
        = option_map normalize
            (find (fun r => String.eqb (js_String (raw_id r)) s) raw)) /\
    (NoDup (map (fun r => js_String (raw_id r)) raw) ->
     forall r, In r raw ->
               exists n, getItemById state' (js_String (raw_id r)) = Some n /\
                         In n (items state') /\ normal_form r n).
Proof.
  exists {| items := map normalize raw |}. split; [reflexivity|]. simpl.
  split; [apply length_map|]. split; [|split].
  - intros k r Hk. exists (normalize r). split.
    + rewrite nth_error_map, Hk. reflexivity.
    + apply normalize_normal_form.
  - intros s. unfold getItemById. simpl. apply find_map_normalize.
  - intros Hnd r Hin. exists (normalize r). split; [|split].
    + unfold getItemById. simpl. rewrite find_map_normalize.
      rewrite (find_first_NoDup (fun r => js_String (raw_id r)) raw r Hnd Hin).
      reflexivity.
    + apply in_map. exact Hin.
    + apply normalize_normal_form.
Qed.

Lemma initialize_normalizes_witness :
  exists state',
    initialize zero_parent {| items := [] |} = Returned tt state' /\
    nth_error (items state') 1 = Some (node "1" None "Child") /\
    getItemById state' "0" = Some (node "0" None "Root").
Proof.
  destruct (initialize_normalizes zero_parent {| items := [] |})
    as [state' [Hrun [_ [Hnth [_ Hget]]]]].
  exists state'. split; [exact Hrun|]. split.
  - destruct (Hnth 1 (mkRawItem (RNum 1) (Some (RNum 0)) "Child") eq_refl)
      as [n [Hn [Hid [Hl [_ [_ Hfalsy]]]]]].
    rewrite Hn. f_equal. destruct n as [ni np nl]. simpl in Hid, Hl.
    specialize (Hfalsy (RNum 0) eq_refl eq_refl). simpl in Hfalsy.
    subst ni np nl. reflexivity.
  - assert (Hnd : NoDup (map (fun r => js_String (raw_id r)) zero_parent)).
    { apply nodupb_sound. reflexivity. }
    destruct (Hget Hnd (mkRawItem (RNum 0) None "Root") (or_introl eq_refl))
      as [n [Hn [_ [Hid [Hl [Hnull _]]]]]].
    change (getItemById state' "0" = Some n) in Hn.
    rewrite Hn. f_equal. destruct n as [ni np nl]. simpl in Hid, Hl.
    specialize (Hnull eq_refl). simpl in Hnull. subst ni np nl. reflexivity.
Defined.

Example initialize_falsy_parents :
  initialize [mkRawItem (RNum 1) (Some RNaN) "a";
              mkRawItem (RNum 2) (Some (RNum 0)) "b";
              mkRawItem (RNum 3) (Some (RStr "")) "c";
              mkRawItem (RNum 4) (Some (ROtherNum "1" ".5")) "d"]
             {| items := [] |}
  = Returned tt {| items := [node "1" None "a"; node "2" None "b";
                             node "3" None "c"; node "4" (Some "1.5") "d"] |}.
Proof. reflexivity. Qed.

(** ** [addItem] *)

(** C7. For every collection, [addItem] throws the duplicate-id error
    when a node with the normalized id exists; otherwise it throws the
    parent-not-found error when the normalized parent is non-null and
    names no node; otherwise it returns normally with the new node
    appended at the end. After either error the collection is the one
    before the call. *)
Theorem addItem_semantics (state : TreeState) (item : RawItem) :
  (forall n, getItemById state (id (normalize item)) = Some n ->
             addItem item state
             = Threw (DuplicateIdError (id (normalize item))) state) /\
  (getItemById state (id (normalize item)) = None ->
   forall p, parent (normalize item) = Some p ->
             getItemById state p = None ->
             addItem item state = Threw (ParentNotFoundError p) state) /\
  (getItemById state (id (normalize item)) = None ->
   (parent (normalize item) = None \/
    exists p y, parent (normalize item) = Some p /\
                getItemById state p = Some y) ->
   addItem item state
   = Returned tt {| items := items state ++ [normalize item] |}).
Proof.
  split; [|split].
  - intros n Hn. eapply addItem_duplicate; eauto.
  - intros Hn p Hp Hnone. apply addItem_parent_missing; assumption.
  - intros Hn [Hp | [p [y [Hp Hy]]]].
    + apply addItem_root; assumption.
    + eapply addItem_child; eauto.
Qed.

Lemma addItem_semantics_witness :
  addItem (mkRawItem (RStr "1") None "Duplicate") solo
  = Threw (DuplicateIdError "1") solo /\
  addItem (mkRawItem (RStr "2") (Some (RStr "999")) "Child") solo
  = Threw (ParentNotFoundError "999") solo /\
  addItem (mkRawItem (RNum 2) (Some (RNum 1)) "Child") solo
  = Returned tt {| items := [node "1" None "Root"; node "2" (Some "1") "Child"] |}.
Proof.
  split; [|split].
  - apply (proj1 (addItem_semantics solo (mkRawItem (RStr "1") None "Duplicate"))
             (node "1" None "Root")).
    reflexivity.
  - apply (proj1 (proj2 (addItem_semantics solo
                    (mkRawItem (RStr "2") (Some (RStr "999")) "Child")))
             eq_refl "999"); reflexivity.
  - apply (proj2 (proj2 (addItem_semantics solo
                    (mkRawItem (RNum 2) (Some (RNum 1)) "Child"))) eq_refl).
    right. exists "1", (node "1" None "Root"). split; reflexivity.
Defined.

(** ** [getAllParents] *)

Lemma ancestor_chain_length state i l :
  acyclic state -> ancestor_chain state i l ->
  List.length l <= List.length (items state).
Proof.
  intros Hac Hch. rewrite <- (length_map id l).
  apply ordered_chain_length with (R := fun a b => ancestor state a b);
    [exact Hac| |].
  - induction Hch as [i E | i y l E Hrest IH]; simpl; constructor; [|exact IH].
    apply ancestor_chain_ancestor in Hrest. rewrite Forall_forall in *.
    intros a Ha. apply in_map_iff in Ha. destruct Ha as [z [<- Hz]].
    apply (Hrest z Hz).
  - apply ancestor_chain_ancestor in Hch. rewrite Forall_forall in Hch.
    intros a Ha. apply in_map_iff in Ha. destruct Ha as [z [<- Hz]].
    apply in_map. apply (Hch z Hz).
Qed.

(** C8, counterexample. On a node that is its own parent [getAllParents]
    returns for no amount of fuel; and on a node whose parent reference
    is the empty string it returns the empty sequence although that
    reference resolves to a node of the collection (which satisfies the
    forest invariant). *)
Lemma getAllParents_chain_fails :
  (forall fuel, getAllParents fuel self_loop "1" = None) /\
  (forest blank_parent /\
   getItemById blank_parent "a" = Some (node "a" (Some "") "A") /\
   getItemById blank_parent "" = Some (node "" None "Root") /\
   forall fuel, getAllParents (S fuel) blank_parent "a" = Some []).
Proof.
  split.
  - induction fuel as [|fuel IH]; [reflexivity|].
    change (getAllParents (S fuel) self_loop "1")
      with (match getAllParents fuel self_loop "1" with
            | Some rest => Some (node "1" (Some "1") "Loop" :: rest)
            | None => None
            end).
    rewrite IH. reflexivity.
  - split; [apply forestb_sound; reflexivity|].
    split; [reflexivity|]. split; [reflexivity|]. intros fuel. reflexivity.
Qed.

(** C8, amended. For every collection and every id, [getAllParents]
    returns a sequence exactly when the ancestor chain of the id is
    finite, and then it returns that chain, nearest ancestor first: the
    node the parent reference resolves to, followed by the chain of that
    node. It returns for every collection in which no node is its own
    ancestor. The chain is empty for an id that names no node and for a
    node whose parent is null or the empty string, and it stops, without
    an error, at a node whose parent reference names no node. *)
Theorem getAllParents_ancestor_chain (state : TreeState) (i : string) :
  (forall l, (exists fuel, getAllParents fuel state i = Some l)
             <-> ancestor_chain state i l) /\
  (acyclic state ->
   exists l, ancestor_chain state i l /\
             forall fuel, List.length (items state) < fuel ->
                          getAllParents fuel state i = Some l) /\
  (getItemById state i = None ->
   forall fuel, getAllParents (S fuel) state i = Some []) /\
  (forall x, getItemById state i = Some x -> no_parent (parent x) = true ->
             forall fuel, getAllParents (S fuel) state i = Some []) /\
  (forall x p, getItemById state i = Some x -> parent x = Some p ->
               getItemById state p = None ->
               forall fuel, getAllParents (S fuel) state i = Some []).
Proof.
  split; [|split; [|split; [|split]]].
  - intros l. split.
    + intros [fuel H]. eapply getAllParents_sound; eauto.
    + intros H. eexists. apply getAllParents_complete. exact H.
  - intros Hac. destruct (getAllParents_terminates state i Hac) as [l Hl].
    exists l. split; [eapply getAllParents_sound; eauto|].
    intros fuel Hlt. eapply getAllParents_mono; [exact Hl|lia].
  - intros H fuel. simpl. rewrite H. reflexivity.
  - intros x Hx Hroot fuel. simpl. rewrite Hx, Hroot. reflexivity.
  - intros x p Hx Hp Hnone fuel. simpl. rewrite Hx, Hp, Hnone.
    destruct (no_parent (Some p)); reflexivity.
Qed.

Lemma getAllParents_ancestor_chain_witness :
  (exists l, ancestor_chain chain3 "3" l /\
             getAllParents 4 chain3 "3" = Some l) /\
  getAllParents 1 chain3 "999" = Some [] /\
  getAllParents 1 chain3 "1" = Some [] /\
  getAllParents 1 {| items := [node "2" (Some "1") "Orphan"] |} "2" = Some [].
Proof.
  split; [|split; [|split]].
  - destruct (proj1 (proj2 (getAllParents_ancestor_chain chain3 "3")))
      as [l [Hch Hrun]].
    { apply forest_acyclic, forestb_sound. reflexivity. }
    exists l. split; [exact Hch|]. apply Hrun. simpl. lia.
  - apply (proj1 (proj2 (proj2 (getAllParents_ancestor_chain chain3 "999")))).
    reflexivity.
  - apply (proj1 (proj2 (proj2 (proj2 (getAllParents_ancestor_chain chain3 "1"))))
             (node "1" None "Root")); reflexivity.
  - apply (proj2 (proj2 (proj2 (proj2
             (getAllParents_ancestor_chain
                {| items := [node "2" (Some "1") "Orphan"] |} "2"))))
             (node "2" (Some "1") "Orphan") "1"); reflexivity.
Defined.

(** ** Termination *)

(** C9. For every collection satisfying the forest invariant and every
    id, [getAllChildren] and [getAllParents] return: each has a result,
    a finite list, that every amount of fuel above the size of the
    collection yields; neither sequence is longer than the collection. *)
Theorem traversals_terminate (state : TreeState) (i : string) :
  forest state ->
  exists children parents,
    (forall fuel, List.length (items state) < fuel ->
                  getAllChildren fuel state i = Some children) /\
    (forall fuel, List.length (items state) < fuel ->
                  getAllParents fuel state i = Some parents) /\
    List.length children <= List.length (items state) /\
    List.length parents <= List.length (items state).
Proof.
  intros Hf. pose proof (forest_acyclic _ Hf) as Hac.
  destruct (getAllChildren_terminates state i Hac) as [cs Hcs].
  destruct (getAllParents_terminates state i Hac) as [ps Hps].
  exists cs, ps. split; [|split; [|split]].
  - intros fuel Hlt. eapply getAllChildren_mono; [exact Hcs|lia].
  - intros fuel Hlt. eapply getAllParents_mono; [exact Hps|lia].
  - eapply getAllChildren_length; eauto.
  - eapply ancestor_chain_length; [exact Hac|].
    eapply getAllParents_sound; eauto.
Qed.

Lemma traversals_terminate_witness :
  exists children parents,
    (forall fuel, List.length (items family5) < fuel ->
                  getAllChildren fuel family5 "2" = Some children) /\
    (forall fuel, List.length (items family5) < fuel ->
                  getAllParents fuel family5 "2" = Some parents) /\
    List.length children <= List.length (items family5) /\
    List.length parents <= List.length (items family5).
Proof.
  apply (traversals_terminate family5 "2").
  apply forestb_sound. vm_compute. reflexivity.
Defined.

(** ** [updateItem]: what a successful call changes *)

(** C10, counterexample. In a collection that holds two nodes with the
    id "a", [updateItem] on "a" replaces both. *)
Lemma updateItem_replaces_twins :
  ~ replaces_one_node twins (mkRawItem (RStr "a") None "z").
Proof.
  intros H.
  destruct (H 0 _ (node "a" None "x") eq_refl eq_refl) as [k [_ [_ Hother]]].
  destruct k as [|k].
  - specialize (Hother 1 (Nat.neq_succ_0 0)). discriminate Hother.
  - specialize (Hother 0 (Nat.neq_0_succ k)). discriminate Hother.
Qed.

Lemma replace_by_id_unique state n e :
  unique_ids state ->
  getItemById state (id n) = Some e ->
  exists k, nth_error (items state) k = Some e /\
            nth_error (replace_by_id n (items state)) k = Some n /\
            forall j, j <> k ->
                      nth_error (replace_by_id n (items state)) j
                      = nth_error (items state) j.
Proof.
  intros Hu He. apply getItemById_Some in He. destruct He as [Hin Hid].
  destruct (In_nth_error _ _ Hin) as [k Hk]. exists k.
  unfold replace_by_id. split; [exact Hk|]. split.
  - rewrite nth_error_map, Hk. simpl. rewrite Hid, String.eqb_refl. reflexivity.
  - intros j Hj. rewrite nth_error_map.
    destruct (nth_error (items state) j) as [x|] eqn:Ex; [|reflexivity].
    simpl. destruct (String.eqb (id x) (id n)) eqn:E; [|reflexivity].
    exfalso. apply Hj. apply String.eqb_eq in E.
    assert (Hx : In x (items state)) by (eapply nth_error_In; eauto).
    assert (Hxe : x = e).
    { apply (unique_ids_inj state x e Hu Hx Hin). congruence. }
    subst x. apply NoDup_map_inv in Hu.
    apply (proj1 (NoDup_nth_error (items state)) Hu).
    + apply nth_error_Some. congruence.
    + congruence.
Qed.

(** C10, amended. For every collection and existing node with the given
    normalized id, a successful [updateItem] keeps the length of the
    collection, puts the updated node (same id, new label and parent) at
    every position that held a node with that id, and leaves every node
    with another id as it was; when ids are unique that is one position,
    the one of the existing node. When the new parent is null the call
    returns normally whatever the collection, with no traversal. *)
Theorem updateItem_replaces_in_place
  (state : TreeState) (fuel : nat) (u : RawItem) (e : TreeNode) :
  getItemById state (id (normalize u)) = Some e ->
  (forall state',
      updateItem fuel u state = Returned tt state' ->
      id (normalize u) = id e /\
      List.length (items state') = List.length (items state) /\
      (forall k x, nth_error (items state) k = Some x ->
                   nth_error (items state') k
                   = Some (if String.eqb (id x) (id e) then normalize u else x)) /\
      (unique_ids state ->
       exists k, nth_error (items state) k = Some e /\
                 nth_error (items state') k = Some (normalize u) /\
                 forall j, j <> k ->
                           nth_error (items state') j
                           = nth_error (items state) j)) /\
  (raw_parent u = None ->
   updateItem fuel u state
   = Returned tt {| items := replace_by_id (normalize u) (items state) |}).
Proof.
  intros He. split.
  - intros state' H. apply updateItem_Returned in H. subst state'. cbn [items].
    pose proof (getItemById_Some _ _ _ He) as [_ Hid].
    split; [congruence|]. split; [apply length_map|]. split.
    + intros k x Hk. unfold replace_by_id. rewrite nth_error_map, Hk.
      cbn [option_map]. rewrite Hid. reflexivity.
    + intros Hu. apply replace_by_id_unique; assumption.
  - intros Hnull. eapply updateItem_to_root; [exact He|].
    unfold normalize. simpl. rewrite Hnull. reflexivity.
Qed.

Lemma updateItem_replaces_in_place_witness :
  updateItem 0 (mkRawItem (RStr "2") None "Updated Child") root_child
  = Returned tt {| items := [node "1" None "Root";
                             node "2" None "Updated Child"] |}
  /\ nth_error (items {| items := [node "1" None "Root";
                                   node "2" None "Updated Child"] |}) 0
     = Some (node "1" None "Root")
  /\ exists k,
       nth_error (items root_child) k = Some (node "2" (Some "1") "Child") /\
       forall j, j <> k ->
                 nth_error [node "1" None "Root"; node "2" None "Updated Child"] j
                 = nth_error (items root_child) j.
Proof.
  destruct (updateItem_replaces_in_place root_child 0
              (mkRawItem (RStr "2") None "Updated Child")
              (node "2" (Some "1") "Child") eq_refl) as [Hframe Hroot].
  split; [|split].
  - rewrite (Hroot eq_refl). reflexivity.
  - destruct (Hframe _ (Hroot eq_refl)) as [_ [_ [Hnth _]]].
    exact (Hnth 0 (node "1" None "Root") eq_refl).
  - destruct (Hframe _ (Hroot eq_refl)) as [_ [_ [_ Hone]]].
    destruct (Hone (nodupb_sound (map id (items root_child)) eq_refl))
      as [k [Hk [_ Hother]]].
    exists k. split; [exact Hk|].
    intros j Hj. rewrite <- (Hother j Hj). reflexivity.
Defined.

(** * Further properties of the store *)

(** ** Lookups after a mutation *)

Lemma find_app_first {A : Type} (f : A -> bool) (l l' : list A) :
  find f (l ++ l')
  = match find f l with Some x => Some x | None => find f l' end.
Proof.
  induction l as [|a l IH]; simpl; [reflexivity|].
  destruct (f a); [reflexivity|exact IH].
Qed.

(** X1. After a successful [addItem], [getItemById] on the normalized id
    returns the new node, and every other lookup answers as before. *)
Theorem addItem_then_getItemById state item state' :
  addItem item state = Returned tt state' ->
  getItemById state' (id (normalize item)) = Some (normalize item) /\
  forall j, j <> id (normalize item) ->
            getItemById state' j = getItemById state j.
Proof.
  intros H. apply addItem_Returned in H. destruct H as [Hfresh [_ ->]].
  unfold getItemById in *. cbn [items]. split.
  - rewrite find_app_first, Hfresh. cbn [find].
    rewrite String.eqb_refl. reflexivity.
  - intros j Hj. rewrite find_app_first.
    destruct (find (fun x => String.eqb (id x) j) (items state)) as [x|];
      [reflexivity|]. cbn [find].
    destruct (String.eqb (id (normalize item)) j) eqn:E; [|reflexivity].
    apply String.eqb_eq in E. congruence.
Qed.

Lemma addItem_then_getItemById_witness :
  getItemById {| items := [node "1" None "Root"; node "2" (Some "1") "Child"] |}
              "2"
  = Some (node "2" (Some "1") "Child").
Proof.
  apply (proj1 (addItem_then_getItemById solo
                  (mkRawItem (RNum 2) (Some (RNum 1)) "Child") _ eq_refl)).
Defined.

(** X2. After a successful [addItem] the new node is the last child of
    its parent, and the children of every other id are as before. *)
Theorem addItem_then_getChildren state item state' :
  addItem item state = Returned tt state' ->
  forall p,
    getChildren state' p
    = if parent_eqb (parent (normalize item)) (Some p)
      then getChildren state p ++ [normalize item]
      else getChildren state p.
Proof.
  intros H p. apply addItem_Returned in H. destruct H as [_ [_ ->]].
  unfold getChildren. cbn [items]. rewrite filter_app. cbn [filter].
  destruct (parent_eqb (parent (normalize item)) (Some p));
    [reflexivity|apply app_nil_r].
Qed.

Lemma addItem_then_getChildren_witness :
  getChildren {| items := [node "1" None "Root"; node "2" (Some "1") "Child"] |}
              "1"
  = [node "2" (Some "1") "Child"].
Proof.
  apply (addItem_then_getChildren solo
           (mkRawItem (RNum 2) (Some (RNum 1)) "Child") _ eq_refl "1").
Defined.

(** X3. After a successful [updateItem], [getItemById] on the normalized
    id returns the updated node, and every other lookup answers as
    before. *)
Theorem updateItem_then_getItemById state fuel u state' :
  updateItem fuel u state = Returned tt state' ->
  getItemById state' (id (normalize u)) = Some (normalize u) /\
  forall j, j <> id (normalize u) ->
            getItemById state' j = getItemById state j.
Proof.
  intros H.
  assert (Hex : exists e, getItemById state (id (normalize u)) = Some e).
  { destruct (getItemById state (id (normalize u))) as [e|] eqn:E; [eauto|].
    rewrite (updateItem_not_found _ _ _ E) in H. discriminate. }
  apply updateItem_Returned in H. subst state'.
  set (n := normalize u) in *. unfold getItemById in *. cbn [items].
  unfold replace_by_id. split.
  - destruct Hex as [e He]. induction (items state) as [|a l IH];
      [discriminate|]. cbn [map find] in *.
    destruct (String.eqb (id a) (id n)) eqn:E.
    + rewrite String.eqb_refl. reflexivity.
    + rewrite E. apply IH. exact He.
  - intros j Hj. clear Hex. induction (items state) as [|a l IH];
      [reflexivity|].
    cbn [map find]. destruct (String.eqb (id a) (id n)) eqn:E.
    + apply String.eqb_eq in E.
      assert (Ej : String.eqb (id n) j = false).
      { apply String.eqb_neq. congruence. }
      assert (Ea : String.eqb (id a) j = false) by (rewrite E; exact Ej).
      rewrite Ej, Ea. exact IH.
    + destruct (String.eqb (id a) j); [reflexivity|exact IH].
Qed.

Lemma updateItem_then_getItemById_witness :
  getItemById {| items := [node "1" None "Root";
                           node "2" (Some "1") "Updated Child"] |} "2"
  = Some (node "2" (Some "1") "Updated Child")
  /\ getItemById {| items := [node "1" None "Root";
                              node "2" (Some "1") "Updated Child"] |} "1"
     = getItemById root_child "1".
Proof.
  destruct (updateItem_then_getItemById root_child 0
              (mkRawItem (RStr "2") (Some (RStr "1")) "Updated Child") _ eq_refl)
    as [Hnew Hother].
  split; [exact Hnew|]. apply Hother. discriminate.
Defined.

(** X4. After a successful [removeItem] (in any collection) the id is
    gone: [getItemById] finds nothing, and a second [removeItem] of the
    same id throws the not-found error and changes nothing. *)
Theorem removeItem_then_lookup state fuel i state' :
  removeItem fuel i state = Returned tt state' ->
  getItemById state' i = None /\
  forall fuel', removeItem fuel' i state' = Threw (NotFoundError i) state'.
Proof.
  intros H.
  assert (Hnone : getItemById state' i = None).
  { destruct (getItemById state i) as [n|] eqn:En;
      [|rewrite (removeItem_not_found _ _ _ En) in H; discriminate].
    destruct (getAllChildren fuel state i) as [allChildren|] eqn:Ec.
    2:{ unfold removeItem, bind at 1, read in H. rewrite En in H.
        unfold bind at 1, call in H. rewrite Ec in H. discriminate. }
    rewrite (removeItem_found _ _ _ _ _ En Ec) in H. inversion H; subst state'.
    apply getItemById_None. cbn [items]. intros Hin.
    apply in_map_iff in Hin. destruct Hin as [x [Hx Hin]].
    apply filter_In in Hin. destruct Hin as [_ Hkeep].
    unfold removed in Hkeep. rewrite Hx, String.eqb_refl in Hkeep.
    discriminate. }
  split; [exact Hnone|]. intros fuel'. apply removeItem_not_found. exact Hnone.
Qed.

Lemma removeItem_then_lookup_witness :
  getItemById {| items := [node "1" None "Root"] |} "2" = None /\
  removeItem 0 "2" {| items := [node "1" None "Root"] |}
  = Threw (NotFoundError "2") {| items := [node "1" None "Root"] |}.
Proof.
  destruct (removeItem_then_lookup chain3 4 "2" _ eq_refl) as [Hnone Hagain].
  split; [exact Hnone|apply Hagain].
Defined.

(** ** What the mutations keep *)

(** X5. A successful [addItem] on a forest leaves a forest, in which the
    new node has no children. *)
Theorem addItem_keeps_forest state item state' :
  forest state ->
  addItem item state = Returned tt state' ->
  forest state' /\ getChildren state' (id (normalize item)) = [].
Proof.
  intros Hf H. split; [eapply addItem_preserves_forest; eauto|].
  destruct Hf as [_ Hr _]. apply addItem_Returned in H.
  destruct H as [Hfresh [Hpar ->]]. apply getItemById_None in Hfresh.
  destruct (getChildren _ (id (normalize item))) as [|c cs] eqn:E;
    [reflexivity|].
  exfalso. assert (Hc : In c (c :: cs)) by (left; reflexivity).
  rewrite <- E in Hc. apply getChildren_In in Hc. cbn [items] in Hc.
  destruct Hc as [Hin Hp]. apply in_app_or in Hin.
  assert (Hres : exists y, In y (items state) /\ id y = id (normalize item)).
  { destruct Hin as [Hin|[<-|[]]].
    - apply (Hr c _ Hin Hp).
    - destruct (Hpar _ Hp) as [y Hy]. apply getItemById_Some in Hy. eauto. }
  destruct Hres as [y [Hy Hid]]. apply Hfresh. rewrite <- Hid.
  apply in_map. exact Hy.
Qed.

Lemma addItem_keeps_forest_witness :
  forest {| items := [node "1" None "Root"; node "2" (Some "1") "Child"] |}.
Proof.
  apply (proj1 (addItem_keeps_forest solo
                  (mkRawItem (RNum 2) (Some (RNum 1)) "Child") _
                  (forestb_sound solo eq_refl) eq_refl)).
Defined.

(** X6. A successful [removeItem] on a forest leaves a forest, made of
    nodes of the original collection only. *)
Theorem removeItem_keeps_forest state fuel i state' :
  forest state ->
  removeItem fuel i state = Returned tt state' ->
  forest state' /\ incl (items state') (items state).
Proof.
  intros Hf H. split; [eapply removeItem_preserves_forest; eauto|].
  destruct (getItemById state i) as [n|] eqn:En;
    [|rewrite (removeItem_not_found _ _ _ En) in H; discriminate].
  destruct (getAllChildren fuel state i) as [allChildren|] eqn:Ec.
  2:{ unfold removeItem, bind at 1, read in H. rewrite En in H.
      unfold bind at 1, call in H. rewrite Ec in H. discriminate. }
  rewrite (removeItem_found _ _ _ _ _ En Ec) in H. inversion H; subst state'.
  intros x Hx. cbn [items] in Hx. apply filter_In in Hx. tauto.
Qed.

Lemma removeItem_keeps_forest_witness :
  forest {| items := [node "1" None "Root"; node "3" (Some "1") "Child 2"] |}.
Proof.
  apply (proj1 (removeItem_keeps_forest family5 6 "2" _
                  (forestb_sound family5 eq_refl) eq_refl)).
Defined.

(** X7. A successful [updateItem] keeps the sequence of ids, hence their
    uniqueness, and keeps every parent reference resolved. *)
Theorem updateItem_keeps_ids_and_parents state fuel u state' :
  unique_ids state -> parents_resolve state ->
  updateItem fuel u state = Returned tt state' ->
  map id (items state') = map id (items state) /\
  unique_ids state' /\ parents_resolve state'.
Proof.
  intros Hu Hr H. split; [|split].
  - apply updateItem_Returned in H. subst state'. apply replace_by_id_ids.
  - eapply updateItem_preserves_unique_ids; eauto.
  - eapply updateItem_preserves_parents_resolve; eauto.
Qed.

Lemma updateItem_keeps_ids_and_parents_witness :
  map id [node "1" None "Root"; node "2" None "Detached"]
  = map id (items root_child)
  /\ parents_resolve {| items := [node "1" None "Root";
                                  node "2" None "Detached"] |}.
Proof.
  destruct (updateItem_keeps_ids_and_parents root_child 0
              (mkRawItem (RStr "2") None "Detached") _
              (forest_unique _ (forestb_sound root_child eq_refl))
              (forest_resolve _ (forestb_sound root_child eq_refl))
              eq_refl) as [Hids [_ Hres]].
  split; [exact Hids|exact Hres].
Defined.

(** X8. Whenever [addItem], [removeItem] or [updateItem] throws, the
    collection is the one before the call: every check precedes the
    first assignment. *)
Theorem thrown_errors_leave_collection :
  (forall state item e s, addItem item state = Threw e s -> s = state) /\
  (forall state fuel i e s, removeItem fuel i state = Threw e s -> s = state) /\
  (forall state fuel u e s, updateItem fuel u state = Threw e s -> s = state).
Proof.
  split; [|split].
  - intros state item e s. apply addItem_Threw.
  - intros state fuel i e s. apply removeItem_Threw.
  - intros state fuel u e s. apply updateItem_Threw.
Qed.

Lemma thrown_errors_leave_collection_witness :
  {| items := [node "1" None "Root"] |} = solo /\
  {| items := [node "1" None "Root"] |} = solo /\
  {| items := [node "1" None "Root"] |} = solo.
Proof.
  destruct thrown_errors_leave_collection as [Hadd [Hremove Hupdate]].
  split; [|split].
  - apply (Hadd solo (mkRawItem (RStr "1") None "Duplicate")
             (DuplicateIdError "1") _ eq_refl).
  - apply (Hremove solo 1 "999" (NotFoundError "999") _ eq_refl).
  - apply (Hupdate solo 1 (mkRawItem (RStr "1") (Some (RStr "999")) "Root")
             (NewParentNotFoundError "999") _ eq_refl).
Defined.

(** ** The traversals *)

(** X9. In a forest [getAllChildren] lists no node twice and never lists
    a node with the id it was called on. *)
Theorem getAllChildren_lists_each_descendant_once state fuel i r :
  forest state ->
  getAllChildren fuel state i = Some r ->
  NoDup r /\ forall x, In x r -> id x <> i.
Proof.
  intros Hf H. split; [eapply getAllChildren_NoDup; eauto|].
  intros x Hx Heq. destruct (getAllChildren_sound _ _ _ _ H x Hx) as [_ Hanc].
  rewrite Heq in Hanc. exact (forest_acyclic _ Hf i Hanc).
Qed.

Lemma getAllChildren_lists_each_descendant_once_witness :
  NoDup [node "2" (Some "1") "Child 1"; node "3" (Some "1") "Child 2";
         node "4" (Some "2") "Grandchild 1"; node "5" (Some "2") "Grandchild 2"].
Proof.
  apply (proj1 (getAllChildren_lists_each_descendant_once family5 6 "1" _
                  (forestb_sound family5 eq_refl) eq_refl)).
Defined.

(** X10. In a collection with unique ids and no cycles, [getAllParents]
    of an existing node returns, and for every member of its result
    [getAllChildren] returns a sequence that holds that node: whoever is
    listed as an ancestor of a node lists the node as a descendant. *)
Theorem getAllParents_members_have_descendant state i x :
  unique_ids state -> acyclic state ->
  getItemById state i = Some x ->
  exists ps,
    (forall fuel, List.length (items state) < fuel ->
                  getAllParents fuel state i = Some ps) /\
    forall y, In y ps ->
      exists r,
        (forall fuel, List.length (items state) < fuel ->
                      getAllChildren fuel state (id y) = Some r) /\
        In x r.
Proof.
  intros Hu Hac Hx.
  destruct (getAllParents_terminates state i Hac) as [ps Hps].
  exists ps. split.
  { intros fuel Hlt. eapply getAllParents_mono; [exact Hps|lia]. }
  intros y Hy.
  destruct (getAllChildren_terminates state (id y) Hac) as [r Hr].
  exists r. split.
  { intros fuel Hlt. eapply getAllChildren_mono; [exact Hr|lia]. }
  apply getItemById_Some in Hx. destruct Hx as [Hin Hid].
  pose proof (ancestor_chain_ancestor _ _ _ (getAllParents_sound _ _ _ _ Hps))
    as Hall.
  rewrite Forall_forall in Hall. destruct (Hall y Hy) as [_ Hanc].
  apply (getAllChildren_complete _ _ _ _ Hu Hr). split; [exact Hin|].
  rewrite Hid. exact Hanc.
Qed.

Lemma getAllParents_members_have_descendant_witness :
  exists ps,
    (forall fuel, List.length (items chain3) < fuel ->
                  getAllParents fuel chain3 "3" = Some ps) /\
    forall y, In y ps ->
      exists r,
        (forall fuel, List.length (items chain3) < fuel ->
                      getAllChildren fuel chain3 (id y) = Some r) /\
        In (node "3" (Some "2") "B") r.
Proof.
  apply (getAllParents_members_have_descendant chain3 "3"
           (node "3" (Some "2") "B")
           (forest_unique _ (forestb_sound chain3 eq_refl))
           (forest_acyclic _ (forestb_sound chain3 eq_refl)) eq_refl).
Defined.

(** ** [updateItem]: the order of its checks *)

(** X11. [updateItem] first looks the node up and throws the not-found
    error for an unknown id; for an existing node whose parent changes
    to a non-null id that names no node it throws the
    new-parent-not-found error, before any ancestor is computed (so for
    every amount of fuel); the collection is unchanged in both cases.
    In a collection without cycles the call always comes to an end, by
    returning or by throwing. *)
Theorem updateItem_error_order state fuel u :
  (getItemById state (id (normalize u)) = None ->
   updateItem fuel u state = Threw (NotFoundError (id (normalize u))) state) /\
  (forall e p,
      getItemById state (id (normalize u)) = Some e ->
      parent (normalize u) = Some p ->
      parent e <> Some p ->
      getItemById state p = None ->
      updateItem fuel u state = Threw (NewParentNotFoundError p) state) /\
  (acyclic state -> List.length (items state) < fuel ->
   updateItem fuel u state <> OutOfFuel).
Proof.
  split; [|split].
  - apply updateItem_not_found.
  - intros e p. apply updateItem_new_parent_missing.
  - intros Hac Hlt.
    destruct (getItemById state (id (normalize u))) as [e|] eqn:Ee;
      [|rewrite (updateItem_not_found _ _ _ Ee); discriminate].
    destruct (parent (normalize u)) as [q|] eqn:Ep;
      [|rewrite (updateItem_to_root _ _ _ _ Ee Ep); discriminate].
    destruct (parent_eqb (Some q) (parent e)) eqn:Eq.
    { apply parent_eqb_eq in Eq. rewrite <- Ep in Eq.
      rewrite (updateItem_same_parent _ _ _ _ Ee Eq). discriminate. }
    assert (Hne : parent e <> Some q).
    { intros Heq. rewrite Heq in Eq. simpl in Eq.
      rewrite String.eqb_refl in Eq. discriminate. }
    destruct (getItemById state q) as [y|] eqn:Ey;
      [|rewrite (updateItem_new_parent_missing _ _ _ _ _ Ee Ep Hne Ey);
        discriminate].
    destruct (getAllParents_terminates state (id e) Hac) as [l Hl].
    assert (Hl' : getAllParents fuel state (id e) = Some l).
    { eapply getAllParents_mono; [exact Hl|lia]. }
    rewrite (updateItem_checked _ _ _ _ _ _ _ Ee Ep Hne Ey Hl').
    destruct (existsb _ l); discriminate.
Qed.

Lemma updateItem_error_order_witness :
  updateItem 0 (mkRawItem (RStr "999") None "New") solo
  = Threw (NotFoundError "999") solo /\
  updateItem 0 (mkRawItem (RStr "2") (Some (RStr "999")) "Child") root_child
  = Threw (NewParentNotFoundError "999") root_child /\
  updateItem 4 (mkRawItem (RStr "3") (Some (RStr "1")) "B") chain3 <> OutOfFuel.
Proof.
  split; [|split].
  - apply (proj1 (updateItem_error_order solo 0
                    (mkRawItem (RStr "999") None "New")) eq_refl).
  - apply (proj1 (proj2 (updateItem_error_order root_child 0
                    (mkRawItem (RStr "2") (Some (RStr "999")) "Child")))
             (node "2" (Some "1") "Child") "999" eq_refl eq_refl).
    + discriminate.
    + reflexivity.
  - apply (proj2 (proj2 (updateItem_error_order chain3 4
                    (mkRawItem (RStr "3") (Some (RStr "1")) "B")))).
    + apply forest_acyclic, forestb_sound. reflexivity.
    + cbn. lia.
Defined.

(** X12. For an existing node whose parent changes to a non-null id that
    names a node, and whose ancestor chain is [l], [updateItem] throws
    the cycle error when the new parent is the id of a member of [l] and
    otherwise returns normally with the node replaced; so moving a node
    directly under one of its ancestors (its grandparent, say) is
    refused. *)
Theorem updateItem_cycle_check state u e p y l :
  getItemById state (id (normalize u)) = Some e ->
  parent (normalize u) = Some p ->
  parent e <> Some p ->
  getItemById state p = Some y ->
  ancestor_chain state (id e) l ->
  forall fuel, List.length l < fuel ->
    updateItem fuel u state
    = if existsb (fun a => String.eqb (id a) p) l
      then Threw CycleError state
      else Returned tt {| items := replace_by_id (normalize u) (items state) |}.
Proof.
  intros He Hp Hne Hy Hl fuel Hlt.
  apply (updateItem_checked _ _ _ _ _ _ _ He Hp Hne Hy).
  eapply getAllParents_mono; [apply getAllParents_complete; exact Hl|lia].
Qed.

Lemma updateItem_cycle_check_witness :
  updateItem 3 (mkRawItem (RStr "3") (Some (RStr "1")) "B") chain3
  = Threw CycleError chain3.
Proof.
  apply (updateItem_cycle_check chain3
           (mkRawItem (RStr "3") (Some (RStr "1")) "B")
           (node "3" (Some "2") "B") "1" (node "1" None "Root")
           [node "2" (Some "1") "A"; node "1" None "Root"]
           eq_refl eq_refl).
  - discriminate.
  - reflexivity.
  - apply chain_link; [reflexivity|]. apply chain_link; [reflexivity|].
    apply chain_end. reflexivity.
  - simpl. lia.
Defined.

(** ** How the operations compose *)

Lemma addItem_new_node_leaf state item state' :
  parents_resolve state ->
  addItem item state = Returned tt state' ->
  getChildren state' (id (normalize item)) = [].
Proof.
  intros Hr H. apply addItem_Returned in H.
  destruct H as [Hfresh [Hpar ->]]. apply getItemById_None in Hfresh.
  destruct (getChildren _ (id (normalize item))) as [|c cs] eqn:E;
    [reflexivity|].
  exfalso. assert (Hc : In c (c :: cs)) by (left; reflexivity).
  rewrite <- E in Hc. apply getChildren_In in Hc. cbn [items] in Hc.
  destruct Hc as [Hin Hp]. apply in_app_or in Hin.
  assert (Hres : exists y, In y (items state) /\ id y = id (normalize item)).
  { destruct Hin as [Hin|[<-|[]]].
    - apply (Hr c _ Hin Hp).
    - destruct (Hpar _ Hp) as [y Hy]. apply getItemById_Some in Hy. eauto. }
  destruct Hres as [y [Hy Hid]]. apply Hfresh. rewrite <- Hid.
  apply in_map. exact Hy.
Qed.

Lemma filter_fresh_snoc (l : list TreeNode) (n : TreeNode) :
  ~ In (id n) (map id l) ->
  filter (fun item => negb (String.eqb (id item) (id n))) (l ++ [n]) = l.
Proof.
  intros Hfresh. rewrite filter_app. cbn [filter].
  rewrite String.eqb_refl. cbn [negb]. rewrite app_nil_r.
  induction l as [|a l IH]; [reflexivity|]. cbn [filter].
  destruct (String.eqb (id a) (id n)) eqn:E.
  - exfalso. apply Hfresh. apply String.eqb_eq in E. left. exact E.
  - cbn [negb]. f_equal. apply IH. intros Hin. apply Hfresh. right. exact Hin.
Qed.

Lemma addItem_finds_new_node state item state' :
  addItem item state = Returned tt state' ->
  getItemById state' (id (normalize item)) = Some (normalize item).
Proof.
  intros H. apply addItem_Returned in H. destruct H as [Hfresh [_ ->]].
  unfold getItemById in *. cbn [items].
  rewrite find_app_first, Hfresh. cbn [find].
  rewrite String.eqb_refl. reflexivity.
Qed.

(** X13. In a collection whose parent references resolve, a successful
    [addItem] followed by [removeItem] of the new id gives the original
    collection back. *)
Theorem addItem_then_removeItem state item state' :
  parents_resolve state ->
  addItem item state = Returned tt state' ->
  forall fuel,
    removeItem (S fuel) (id (normalize item)) state' = Returned tt state.
Proof.
  intros Hr H fuel.
  pose proof (addItem_new_node_leaf _ _ _ Hr H) as Hleaf.
  pose proof (addItem_finds_new_node _ _ _ H) as Hget.
  assert (Hc : getAllChildren (S fuel) state' (id (normalize item)) = Some []).
  { rewrite getAllChildren_unfold, Hleaf. reflexivity. }
  rewrite (removeItem_found _ _ _ _ _ Hget Hc).
  apply addItem_Returned in H. destruct H as [Hfresh [_ ->]].
  apply getItemById_None in Hfresh. cbn [items]. unfold removed.
  cbn [existsb]. destruct state as [its]. cbn [items] in *. f_equal. f_equal.
  rewrite <- (filter_fresh_snoc its (normalize item) Hfresh) at 2.
  apply filter_ext. intros a. rewrite orb_false_r. reflexivity.
Qed.

Lemma addItem_then_removeItem_witness :
  removeItem 1 "2"
    {| items := [node "1" None "Root"; node "2" (Some "1") "Child"] |}
  = Returned tt solo.
Proof.
  apply (addItem_then_removeItem solo
           (mkRawItem (RNum 2) (Some (RNum 1)) "Child") _
           (forest_resolve _ (forestb_sound solo eq_refl)) eq_refl 0).
Defined.

(** X14. Adding the elements of a list one after the other with
    [addItem] to a forest, when every call succeeds, gives a forest that
    holds the old nodes followed by the normalized elements in their
    order; started from the empty collection this is the collection
    that [initialize] sets for the same list. *)
Theorem addItems_build_forest (raw : list RawItem) state state' :
  forest state ->
  forEach raw addItem state = Returned tt state' ->
  forest state' /\
  items state' = items state ++ map normalize raw /\
  (items state = [] -> initialize raw state = Returned tt state').
Proof.
  revert state. induction raw as [|r raw IH]; intros state Hf H.
  - cbn in H. inversion H; subst state'. split; [exact Hf|].
    split; [symmetry; apply app_nil_r|]. intros Hempty.
    destruct state as [its]. cbn in Hempty. subst its. reflexivity.
  - cbn [forEach] in H. unfold bind in H.
    destruct (addItem r state) as [[] s1|e s1|] eqn:E; try discriminate H.
    pose proof (addItem_preserves_forest _ _ _ Hf E) as Hf1.
    destruct (IH s1 Hf1 H) as [Hf' [Hits _]]. split; [exact Hf'|].
    apply addItem_Returned in E. destruct E as [_ [_ ->]]. cbn [items] in Hits.
    assert (Hall : items state' = items state ++ map normalize (r :: raw)).
    { rewrite Hits, <- app_assoc. reflexivity. }
    split; [exact Hall|]. intros Hempty. rewrite Hempty in Hall.
    destruct state' as [its']. cbn in Hall. subst its'. reflexivity.
Qed.

Lemma addItems_build_forest_witness :
  forest chain3 /\
  initialize [mkRawItem (RNum 1) None "Root";
              mkRawItem (RNum 2) (Some (RNum 1)) "A";
              mkRawItem (RNum 3) (Some (RStr "2")) "B"] {| items := [] |}
  = Returned tt chain3.
Proof.
  destruct (addItems_build_forest
              [mkRawItem (RNum 1) None "Root";
               mkRawItem (RNum 2) (Some (RNum 1)) "A";
               mkRawItem (RNum 3) (Some (RStr "2")) "B"]
              {| items := [] |} chain3
              (forestb_sound {| items := [] |} eq_refl) eq_refl)
    as [Hf [_ Hinit]].
  split; [exact Hf|apply Hinit; reflexivity].
Defined.

(** ** Normalization *)

Lemma normalize_raw_of_node (x : TreeNode) :
  parent x <> Some "" -> normalize (raw_of_node x) = x.
Proof.
  intros Hp. destruct x as [i [p|] l]; unfold normalize, raw_of_node; cbn.
  - destruct (String.eqb p "") eqn:E.
    + apply String.eqb_eq in E. subst p. exfalso. apply Hp. reflexivity.
    + reflexivity.
  - reflexivity.
Qed.

(** X15. [initialize] applied to the nodes of a collection in which no
    parent reference is the empty string sets exactly that collection:
    nodes that are already in normal form pass through unchanged. *)
Theorem initialize_of_own_items state s0 :
  no_blank_parent state ->
  initialize (map raw_of_node (items state)) s0 = Returned tt state.
Proof.
  intros Hnb. unfold initialize, assign_items. destruct state as [its].
  cbn [items] in *. f_equal. f_equal. rewrite map_map.
  rewrite <- (map_id its) at 2. apply map_ext_in. intros x Hx.
  apply normalize_raw_of_node. apply Hnb. exact Hx.
Qed.

Lemma initialize_of_own_items_witness :
  initialize (map raw_of_node (items family5)) solo = Returned tt family5.
Proof.
  apply (initialize_of_own_items family5 solo).
  intros x Hx. cbn in Hx.
  destruct Hx as [<-|[<-|[<-|[<-|[<-|[]]]]]]; discriminate.
Defined.

(** X16. The store never writes an empty-string parent: [initialize]
    leaves none, and [addItem], [removeItem] and [updateItem] add none
    to a collection that has none. *)
Theorem store_writes_no_blank_parent :
  (forall raw s s', initialize raw s = Returned tt s' -> no_blank_parent s') /\
  (forall item s s', no_blank_parent s ->
                     addItem item s = Returned tt s' -> no_blank_parent s') /\
  (forall fuel i s s', no_blank_parent s ->
                       removeItem fuel i s = Returned tt s' ->
                       no_blank_parent s') /\
  (forall fuel u s s', no_blank_parent s ->
                       updateItem fuel u s = Returned tt s' ->
                       no_blank_parent s').
Proof.
  assert (Hnorm : forall r, parent (normalize r) <> Some "").
  { intros r. unfold normalize. cbn [parent].
    destruct (raw_parent r) as [[z| |first rest|str]|]; try discriminate.
    - cbn [truthy js_String]. destruct (Z.eqb z 0) eqn:E; cbn [negb];
        [discriminate|].
      intros H. inversion H as [Hs]. apply Z.eqb_neq in E.
      destruct z; [contradiction| |]; cbn in Hs;
        unfold NilZero.string_of_uint in Hs.
      + destruct (Pos.to_uint p); discriminate Hs.
      + discriminate Hs.
    - cbn [truthy js_String]. destruct (String.eqb str "") eqn:E; cbn [negb];
        [discriminate|].
      intros H. inversion H. subst str. discriminate E. }
  split; [|split; [|split]].
  - intros raw s s' H. inversion H; subst s'. intros x Hx. cbn [items] in Hx.
    apply in_map_iff in Hx. destruct Hx as [r [<- _]]. apply Hnorm.
  - intros item s s' Hnb H. apply addItem_Returned in H.
    destruct H as [_ [_ ->]]. intros x Hx. cbn [items] in Hx.
    apply in_app_or in Hx. destruct Hx as [Hx|[<-|[]]]; [apply Hnb; exact Hx|].
    apply Hnorm.
  - intros fuel i s s' Hnb H.
    destruct (getItemById s i) as [n|] eqn:En;
      [|rewrite (removeItem_not_found _ _ _ En) in H; discriminate].
    destruct (getAllChildren fuel s i) as [allChildren|] eqn:Ec.
    2:{ unfold removeItem, bind at 1, read in H. rewrite En in H.
        unfold bind at 1, call in H. rewrite Ec in H. discriminate. }
    rewrite (removeItem_found _ _ _ _ _ En Ec) in H. inversion H; subst s'.
    intros x Hx. cbn [items] in Hx. apply filter_In in Hx. apply Hnb. tauto.
  - intros fuel u s s' Hnb H. apply updateItem_Returned in H. subst s'.
    intros x Hx. cbn [items] in Hx. unfold replace_by_id in Hx.
    apply in_map_iff in Hx. destruct Hx as [x0 [Hx Hx0]].
    destruct (String.eqb (id x0) (id (normalize u))); subst x;
      [apply Hnorm|apply Hnb; exact Hx0].
Qed.

Lemma store_writes_no_blank_parent_witness :
  no_blank_parent {| items := map normalize zero_parent |} /\
  no_blank_parent
    {| items := [node "1" None "Root"; node "2" None "Loose"] |}.
Proof.
  destruct store_writes_no_blank_parent as [Hinit [Hadd _]].
  split.
  - apply (Hinit zero_parent {| items := [] |} _ eq_refl).
  - apply (Hadd (mkRawItem (RNum 2) (Some (RStr "")) "Loose") solo).
    + intros x Hx. cbn in Hx. destruct Hx as [<-|[]]. discriminate.
    + reflexivity.
Defined.

(** ** [getAllParents] and the ancestors of a node *)

Lemma resolve_parent_of state i p y :
  unique_ids state -> no_blank_parent state ->
  parent_of state i p -> In y (items state) -> id y = p ->
  resolve_parent state i = Some y.
Proof.
  intros Hu Hnb [x [Hx [Hxi Hxp]]] Hy Hyp. unfold resolve_parent.
  rewrite <- Hxi, (getItemById_unique state x Hu Hx), Hxp.
  destruct (String.eqb p "") eqn:E.
  - apply String.eqb_eq in E. rewrite E in Hxp. exfalso. exact (Hnb x Hx Hxp).
  - rewrite <- Hyp. apply getItemById_unique; assumption.
Qed.

Lemma ancestor_chain_complete state i a :
  unique_ids state -> no_blank_parent state ->
  ancestor state i a ->
  forall y, In y (items state) -> id y = a ->
  forall l, ancestor_chain state i l -> In y l.
Proof.
  intros Hu Hnb Hanc.
  induction Hanc as [i p Hp | i p a Hp Hrest IH]; intros y Hy Hya l Hl.
  - pose proof (resolve_parent_of _ _ _ _ Hu Hnb Hp Hy Hya) as Hres.
    inversion Hl as [? E | ? y' l' E Hl']; subst; [congruence|].
    rewrite Hres in E. inversion E. left. reflexivity.
  - pose proof (ancestor_source_In _ _ _ Hrest) as Hpin.
    apply in_map_iff in Hpin. destruct Hpin as [yp [Hyp Hypin]].
    pose proof (resolve_parent_of _ _ _ _ Hu Hnb Hp Hypin Hyp) as Hres.
    inversion Hl as [? E | ? y' l' E Hl']; subst; [congruence|].
    rewrite Hres in E. inversion E; subst y'. right.
    apply (IH y Hy eq_refl l' Hl').
Qed.

(** X17. In a collection with unique ids and no empty-string parent,
    the result of [getAllParents] holds exactly the nodes whose id is
    reached from the given id by following parent references. *)
Theorem getAllParents_lists_exactly_ancestors state fuel i ps :
  unique_ids state -> no_blank_parent state ->
  getAllParents fuel state i = Some ps ->
  forall y, In y ps <-> In y (items state) /\ ancestor state i (id y).
Proof.
  intros Hu Hnb H y. apply getAllParents_sound in H. split.
  - intros Hy. pose proof (ancestor_chain_ancestor _ _ _ H) as Hall.
    rewrite Forall_forall in Hall. exact (Hall y Hy).
  - intros [Hy Hanc].
    exact (ancestor_chain_complete _ _ _ Hu Hnb Hanc y Hy eq_refl ps H).
Qed.

Lemma getAllParents_lists_exactly_ancestors_witness :
  In (node "1" None "Root") (items chain3) /\
  ancestor chain3 "3" (id (node "1" None "Root")).
Proof.
  apply (getAllParents_lists_exactly_ancestors chain3 4 "3"
           [node "2" (Some "1") "A"; node "1" None "Root"]
           (forest_unique _ (forestb_sound chain3 eq_refl))).
  - intros x Hx. cbn in Hx. destruct Hx as [<-|[<-|[<-|[]]]]; discriminate.
  - reflexivity.
  - right. left. reflexivity.
Defined.

(** * Properties of the page *)

(** ** The history *)

Lemma at_index_nat {A : Type} (l : list A) (k : nat) :
  at_index l (Z.of_nat k) = nth_error l k.
Proof.
  unfold at_index. destruct (Z.ltb_spec (Z.of_nat k) 0) as [H|H]; [lia|].
  rewrite Nat2Z.id. reflexivity.
Qed.

Lemma at_index_in_bounds {A : Type} (l : list A) (i : Z) :
  (0 <= i < Z.of_nat (List.length l))%Z -> exists a, at_index l i = Some a.
Proof.
  intros H. unfold at_index. destruct (Z.ltb_spec i 0) as [Hneg|_]; [lia|].
  destruct (nth_error l (Z.to_nat i)) as [a|] eqn:E; [eauto|].
  apply nth_error_None in E. lia.
Qed.

Lemma pushHistory_history p :
  history_ok p ->
  history (pushHistory p)
  = firstn (S (Z.to_nat (historyIndex p))) (history p) ++ [items (treeStore p)].
Proof.
  intros [Hlo Hhi]. unfold pushHistory. cbn [history]. f_equal.
  destruct (Z.ltb_spec (historyIndex p)
              (Z.of_nat (List.length (history p)) - 1)) as [Hlt|Hge].
  - unfold slice_to.
    destruct (Z.ltb_spec (historyIndex p + 1) 0) as [Hneg|_]; [lia|].
    f_equal. lia.
  - symmetry. apply firstn_all2. lia.
Qed.

Lemma pushHistory_appends_snapshot_parts p :
  treeStore (pushHistory p) = treeStore p /\
  at_index (history (pushHistory p)) (historyIndex (pushHistory p))
  = Some (items (treeStore p)).
Proof.
  split; [reflexivity|].
  unfold pushHistory. cbn [history historyIndex].
  set (kept := if Z.ltb _ _ then _ else _).
  rewrite length_app. cbn [List.length].
  replace (Z.of_nat (List.length kept + 1) - 1)%Z
    with (Z.of_nat (List.length kept)) by lia.
  rewrite at_index_nat, nth_error_app2, Nat.sub_diag; [reflexivity|lia].
Qed.

(** X18. [pushHistory] leaves the store and the expanded rows alone and
    makes the cursor point at a new last snapshot, which holds the
    current items; when the cursor pointed at a snapshot, the snapshots
    up to it are kept and those after it (the redo branch) are dropped. *)
Theorem pushHistory_appends_snapshot (p : Page) :
  treeStore (pushHistory p) = treeStore p /\
  expanded (pushHistory p) = expanded p /\
  historyIndex (pushHistory p)
  = (Z.of_nat (List.length (history (pushHistory p))) - 1)%Z /\
  at_index (history (pushHistory p)) (historyIndex (pushHistory p))
  = Some (items (treeStore p)) /\
  (history_ok p ->
   history (pushHistory p)
   = firstn (S (Z.to_nat (historyIndex p))) (history p)
     ++ [items (treeStore p)]).
Proof.
  split; [reflexivity|]. split; [reflexivity|]. split; [reflexivity|].
  split; [|apply pushHistory_history].
  unfold pushHistory. cbn [history historyIndex].
  set (kept := if Z.ltb _ _ then _ else _).
  rewrite length_app. cbn [List.length].
  replace (Z.of_nat (List.length kept + 1) - 1)%Z
    with (Z.of_nat (List.length kept)) by lia.
  rewrite at_index_nat, nth_error_app2, Nat.sub_diag; [reflexivity|lia].
Qed.

Lemma pushHistory_appends_snapshot_witness :
  history (pushHistory
             {| treeStore := solo; history := [items seed; items chain3];
                historyIndex := 0; expanded := [] |})
  = [items seed; items solo].
Proof.
  apply (proj2 (proj2 (proj2 (proj2
           (pushHistory_appends_snapshot
              {| treeStore := solo; history := [items seed; items chain3];
                 historyIndex := 0; expanded := [] |}))))).
  unfold history_ok. cbn. lia.
Defined.

(** X19. The cursor of the history always points at a snapshot after
    [pushHistory], and [undo] and [redo] keep it pointing at one; they
    never change the list of snapshots. *)
Theorem history_cursor_stays_in_bounds :
  (forall p, history_ok (pushHistory p)) /\
  (forall resetItems p,
      history_ok p ->
      history_ok (undo resetItems p) /\
      history (undo resetItems p) = history p) /\
  (forall resetItems p,
      history_ok p ->
      history_ok (redo resetItems p) /\
      history (redo resetItems p) = history p).
Proof.
  split; [|split].
  - intros p. unfold history_ok, pushHistory. cbn [history historyIndex].
    rewrite length_app. cbn [List.length]. lia.
  - intros r p [Hlo Hhi]. unfold undo, history_ok.
    destruct (Z.ltb_spec 0 (historyIndex p)) as [Hpos|Hnpos];
      cbn [history historyIndex]; split; try reflexivity; lia.
  - intros r p [Hlo Hhi]. unfold redo, history_ok.
    destruct (Z.ltb_spec (historyIndex p)
                (Z.of_nat (List.length (history p)) - 1)) as [Hlt|Hge];
      cbn [history historyIndex]; split; try reflexivity; lia.
Qed.

Lemma history_cursor_stays_in_bounds_witness :
  history_ok (undo (fun l _ => {| items := l |}) (pushHistory seed_page)) /\
  history_ok (redo (fun l _ => {| items := l |}) seed_page).
Proof.
  destruct history_cursor_stays_in_bounds as [Hpush [Hundo Hredo]].
  split.
  - apply (Hundo (fun l _ => {| items := l |}) (pushHistory seed_page)).
    apply Hpush.
  - apply (Hredo (fun l _ => {| items := l |}) seed_page).
    unfold history_ok. cbn. lia.
Defined.

(** X20. With the store as given, when the cursor points at a snapshot
    other than the first, [undo] moves the cursor one back and then
    throws at the call of [resetItems]: the store, the snapshots and the
    expanded rows are untouched. A [redo] on the page it leaves moves
    the cursor forward again and throws likewise, so the page is back
    where it was and the store has never been reset. *)
Theorem undo_then_redo (p : Page) :
  history_ok p -> (0 < historyIndex p)%Z ->
  undo_as_given p
  = PageThrewTypeError {| treeStore := treeStore p;
                          history := history p;
                          historyIndex := (historyIndex p - 1)%Z;
                          expanded := expanded p |} /\
  redo_as_given (page_after (undo_as_given p)) = PageThrewTypeError p.
Proof.
  intros [Hlo Hhi] Hpos.
  destruct (at_index_in_bounds (history p) (historyIndex p - 1)) as [b Hb];
    [lia|].
  destruct (at_index_in_bounds (history p) (historyIndex p)) as [c Hc];
    [lia|].
  assert (Hundo : undo_as_given p
                  = PageThrewTypeError
                      {| treeStore := treeStore p;
                         history := history p;
                         historyIndex := (historyIndex p - 1)%Z;
                         expanded := expanded p |}).
  { unfold undo_as_given.
    destruct (Z.ltb_spec 0 (historyIndex p)) as [_|Hn]; [|lia].
    cbv zeta. rewrite Hb. reflexivity. }
  split; [exact Hundo|]. rewrite Hundo. unfold redo_as_given, page_after.
  cbn [history historyIndex treeStore expanded].
  destruct (Z.ltb_spec (historyIndex p - 1)
              (Z.of_nat (List.length (history p)) - 1)) as [_|Hn]; [|lia].
  cbv zeta. replace (historyIndex p - 1 + 1)%Z with (historyIndex p) by lia.
  rewrite Hc. destruct p; reflexivity.
Qed.

Lemma undo_then_redo_witness :
  undo_as_given {| treeStore := seed; history := [items solo; items seed];
                   historyIndex := 1; expanded := [] |}
  = PageThrewTypeError
      {| treeStore := seed; history := [items solo; items seed];
         historyIndex := 0; expanded := [] |}.
Proof.
  apply (proj1 (undo_then_redo
                  {| treeStore := seed; history := [items solo; items seed];
                     historyIndex := 1; expanded := [] |}
                  (conj (Z.le_0_1) (eq_refl : (1 ?= 2)%Z = Lt)) eq_refl)).
Defined.

(** On the cursor, the snapshots and the expanded rows, the two models
    of [undo] and of [redo] agree, whatever [resetItems] is. *)
Lemma as_given_same_cursor resetItems (p : Page) :
  (history (page_after (undo_as_given p)) = history (undo resetItems p) /\
   historyIndex (page_after (undo_as_given p))
   = historyIndex (undo resetItems p) /\
   expanded (page_after (undo_as_given p)) = expanded (undo resetItems p)) /\
  (history (page_after (redo_as_given p)) = history (redo resetItems p) /\
   historyIndex (page_after (redo_as_given p))
   = historyIndex (redo resetItems p) /\
   expanded (page_after (redo_as_given p)) = expanded (redo resetItems p)).
Proof.
  unfold undo_as_given, undo, redo_as_given, redo. split.
  - destruct (Z.ltb 0 (historyIndex p)); cbv zeta;
      [destruct (at_index (history p) (historyIndex p - 1))|];
      repeat split; reflexivity.
  - destruct (Z.ltb (historyIndex p) (Z.of_nat (List.length (history p)) - 1));
      cbv zeta; [destruct (at_index (history p) (historyIndex p + 1))|];
      repeat split; reflexivity.
Qed.

(** X21. [undo] does nothing when the cursor is at the first snapshot
    (or below), and [redo] does nothing right after [pushHistory]: a new
    snapshot leaves nothing to redo. *)
Theorem undo_redo_at_the_ends resetItems (p : Page) :
  ((historyIndex p <= 0)%Z -> undo resetItems p = p) /\
  redo resetItems (pushHistory p) = pushHistory p.
Proof.
  split.
  - intros H. unfold undo.
    destruct (Z.ltb_spec 0 (historyIndex p)) as [Hpos|_]; [lia|reflexivity].
  - unfold redo.
    destruct (Z.ltb_spec (historyIndex (pushHistory p))
                (Z.of_nat (List.length (history (pushHistory p))) - 1))
      as [Hlt|_]; [|reflexivity].
    exfalso. cbn [pushHistory historyIndex history] in Hlt. lia.
Qed.

Lemma undo_redo_at_the_ends_witness :
  undo (fun l _ => {| items := l |}) seed_page = seed_page.
Proof.
  apply (proj1 (undo_redo_at_the_ends (fun l _ => {| items := l |}) seed_page)).
  cbn. lia.
Defined.

(** ** Expanded rows *)

(** X22. [toggleExpand] flips the answer of [isExpanded] for the given
    id and for no other id; toggling twice gives every id its first
    answer again. *)
Theorem toggleExpand_flips (p : Page) (i : string) :
  isExpanded (toggleExpand i p) i = negb (isExpanded p i) /\
  (forall j, j <> i -> isExpanded (toggleExpand i p) j = isExpanded p j) /\
  (forall j, isExpanded (toggleExpand i (toggleExpand i p)) j
             = isExpanded p j).
Proof.
  assert (Hself : forall q, isExpanded (toggleExpand i q) i
                            = negb (isExpanded q i)).
  { intros q. unfold toggleExpand, isExpanded at 1. cbn [expanded].
    destruct (isExpanded q i) eqn:E; cbn [negb].
    - induction (expanded q) as [|a l IH]; [reflexivity|]. cbn [filter].
      destruct (String.eqb a i) eqn:Ea; cbn [negb]; [exact IH|].
      cbn [existsb]. rewrite String.eqb_sym, Ea. exact IH.
    - rewrite existsb_app. cbn [existsb]. rewrite String.eqb_refl.
      apply orb_true_iff. right. reflexivity. }
  assert (Hother : forall q j, j <> i ->
                               isExpanded (toggleExpand i q) j = isExpanded q j).
  { intros q j Hj. unfold toggleExpand, isExpanded at 1 3. cbn [expanded].
    assert (Eji : String.eqb j i = false) by (apply String.eqb_neq; exact Hj).
    destruct (isExpanded q i).
    - induction (expanded q) as [|a l IH]; [reflexivity|]. cbn [filter existsb].
      destruct (String.eqb a i) eqn:Ea; cbn [negb].
      + apply String.eqb_eq in Ea. subst a. rewrite Eji. exact IH.
      + cbn [existsb]. rewrite IH. reflexivity.
    - rewrite existsb_app. cbn [existsb]. rewrite Eji. cbn [orb].
      rewrite orb_false_r. reflexivity. }
  split; [apply Hself|]. split; [apply Hother|].
  intros j. destruct (String.eqb_spec j i) as [->|Hj].
  - rewrite Hself, Hself. apply negb_involutive.
  - rewrite Hother, Hother; auto.
Qed.

Lemma toggleExpand_flips_witness :
  isExpanded (toggleExpand "1" (toggleExpand "2" seed_page)) "2"
  = isExpanded (toggleExpand "2" seed_page) "2".
Proof.
  apply (proj1 (proj2 (toggleExpand_flips (toggleExpand "2" seed_page) "1"))).
  discriminate.
Defined.

(** ** Rendering the rows *)

Lemma TreeTableRow_nested_ind (P : TreeTableRow -> Prop) :
  (forall row, Forall P (row_children row) -> P row) -> forall row, P row.
Proof.
  intros H. fix IH 1. intros [i q l x c cs v]. apply H. cbn [row_children].
  induction cs as [|ch cs IHcs]; constructor; [apply IH|exact IHcs].
Qed.

Lemma flat_map_Forall_ext {A B : Type} (f g : A -> list B) (l : list A) :
  Forall (fun a => f a = g a) l -> flat_map f l = flat_map g l.
Proof.
  induction 1 as [|a l Ha _ IH]; cbn [flat_map]; [reflexivity|].
  rewrite Ha, IH. reflexivity.
Qed.

Lemma renderRow_below p row : incl (renderRow p row) (rows_below row).
Proof.
  induction row as [row IH] using TreeTableRow_nested_ind.
  intros r Hr. destruct row as [i q l x c cs v].
  cbn [renderRow rows_below row_children row_id] in *.
  destruct Hr as [Hr|Hr]; [left; exact Hr|right].
  destruct (Nat.ltb 0 (List.length cs) && isExpanded p i); [|contradiction].
  apply in_flat_map in Hr. destruct Hr as [ch [Hch Hin]].
  apply in_flat_map. exists ch. split; [exact Hch|].
  rewrite Forall_forall in IH. exact (IH ch Hch r Hin).
Qed.

Lemma renderRow_all_expanded p row :
  (forall r, In r (rows_below row) -> isExpanded p (row_id r) = true) ->
  renderRow p row = rows_below row.
Proof.
  induction row as [row IH] using TreeTableRow_nested_ind.
  intros Hall. destruct row as [i q l x c cs v].
  cbn [renderRow rows_below row_children row_id] in *. f_equal.
  pose proof (Hall _ (or_introl eq_refl)) as Hi. cbn [row_id] in Hi.
  rewrite Hi, andb_true_r.
  destruct cs as [|ch cs]; [reflexivity|]. cbn [List.length Nat.ltb Nat.leb].
  apply flat_map_Forall_ext. rewrite Forall_forall in *. intros r Hr.
  apply (IH r Hr). intros r' Hr'. apply Hall. right.
  apply in_flat_map. exists r. split; assumption.
Qed.

(** X23. [renderRows] returns the given rows unchanged when none of them
    is expanded, and all the rows of the table, each before its
    children, when every row is expanded; in between it returns at
    least the given rows and only rows of the table. *)
Theorem renderRows_collapsed_and_expanded (p : Page) (rows : list TreeTableRow) :
  ((forall row, In row rows -> isExpanded p (row_id row) = false) ->
   renderRows p rows = rows) /\
  ((forall row, In row (all_rows rows) -> isExpanded p (row_id row) = true) ->
   renderRows p rows = all_rows rows) /\
  incl rows (renderRows p rows) /\
  incl (renderRows p rows) (all_rows rows).
Proof.
  unfold renderRows, all_rows. split; [|split; [|split]].
  - induction rows as [|row rows IH]; intros H; [reflexivity|].
    pose proof (H row (or_introl eq_refl)) as Hrow.
    destruct row as [i q l x c cs v]. cbn [row_id] in Hrow.
    cbn [flat_map renderRow row_children row_id].
    rewrite Hrow, andb_false_r. cbn [app]. f_equal. apply IH.
    intros r Hr. apply H. right. exact Hr.
  - intros H. apply flat_map_Forall_ext. rewrite Forall_forall.
    intros row Hrow. apply renderRow_all_expanded. intros r Hr. apply H.
    apply in_flat_map. exists row. split; assumption.
  - intros row Hrow. apply in_flat_map. exists row. split; [exact Hrow|].
    destruct row; left; reflexivity.
  - intros r Hr. apply in_flat_map in Hr. destruct Hr as [row [Hrow Hin]].
    apply in_flat_map. exists row. split; [exact Hrow|].
    exact (renderRow_below p row r Hin).
Qed.

Lemma renderRows_collapsed_and_expanded_witness :
  renderRows seed_page
    [mkTreeTableRow "1" None "Item 1" 2 "Группа"
       [mkTreeTableRow "2" (Some "1") "Item 2" 1 "Элемент" [] 1] 0]
  = [mkTreeTableRow "1" None "Item 1" 2 "Группа"
       [mkTreeTableRow "2" (Some "1") "Item 2" 1 "Элемент" [] 1] 0].
Proof.
  apply (proj1 (renderRows_collapsed_and_expanded seed_page
                  [mkTreeTableRow "1" None "Item 1" 2 "Группа"
                     [mkTreeTableRow "2" (Some "1") "Item 2" 1 "Элемент" [] 1]
                     0])).
  intros row _. reflexivity.
Defined.

(** ** Building the table *)

Lemma map_counting_cons_Some {A B : Type} (f : A -> Z -> option (B * Z))
  a l c rows c' :
  map_counting f (a :: l) c = Some (rows, c') ->
  exists b c1 bs, f a c = Some (b, c1) /\
                  map_counting f l c1 = Some (bs, c') /\ rows = b :: bs.
Proof.
  cbn [map_counting]. destruct (f a c) as [[b c1]|] eqn:E; [|discriminate].
  destruct (map_counting f l c1) as [[bs c2]|] eqn:E'; [|discriminate].
  intros H. inversion H; subst. exists b, c1, bs. auto.
Qed.

Lemma map_counting_None {A B : Type} (f : A -> Z -> option (B * Z)) l c :
  map_counting f l c = None -> exists a c1, In a l /\ f a c1 = None.
Proof.
  revert c. induction l as [|a l IH]; intros c; cbn [map_counting];
    [discriminate|].
  destruct (f a c) as [[b c1]|] eqn:E.
  - destruct (map_counting f l c1) as [[bs c2]|] eqn:E'; [discriminate|].
    intros _. destruct (IH _ E') as [a' [c' [Hin Hnone]]].
    exists a', c'. split; [right; exact Hin|exact Hnone].
  - intros _. exists a, c. split; [left; reflexivity|exact E].
Qed.

Lemma map_counting_mono {A B : Type} (f g : A -> Z -> option (B * Z)) l c r :
  (forall a c y, f a c = Some y -> g a c = Some y) ->
  map_counting f l c = Some r -> map_counting g l c = Some r.
Proof.
  intros Hfg. revert c r. induction l as [|a l IH]; intros c r;
    cbn [map_counting]; [auto|].
  destruct (f a c) as [[b c1]|] eqn:E; [|discriminate].
  rewrite (Hfg _ _ _ E).
  destruct (map_counting f l c1) as [[bs c2]|] eqn:E'; [|discriminate].
  rewrite (IH _ _ E'). auto.
Qed.

(** One call of the callback of [buildTreeTableRows]. *)
Lemma buildTreeTableRows_callback fuel state level item counter row counter1 :
  match buildTreeTableRows fuel state (Some (id item)) (level + 1) counter with
  | None => None
  | Some (children, counter') =>
      Some ({| row_id := id item;
               row_parent := parent item;
               row_label := label item;
               row_index := counter';
               row_category := if Nat.ltb 0 (List.length children)
                               then "Группа" else "Элемент";
               row_children := children;
               row_level := level |},
            (counter' + 1)%Z)
  end = Some (row, counter1) ->
  exists children counter',
    buildTreeTableRows fuel state (Some (id item)) (level + 1) counter
    = Some (children, counter') /\
    counter1 = (counter' + 1)%Z /\
    row = {| row_id := id item;
             row_parent := parent item;
             row_label := label item;
             row_index := counter';
             row_category := if Nat.ltb 0 (List.length children)
                             then "Группа" else "Элемент";
             row_children := children;
             row_level := level |}.
Proof.
  destruct (buildTreeTableRows fuel state (Some (id item)) (level + 1) counter)
    as [[children counter']|] eqn:E; [|discriminate].
  intros H. inversion H. exists children, counter'. auto.
Qed.

(** X24. The rows [buildTreeTableRows] returns for a parent id are, in
    the order of the collection, the rows of the items with that parent:
    each carries the id, parent and label of its item and the level of
    the call, is a group exactly when it has children, and has as
    children rows of the next level whose parent is the item. *)
Theorem buildTreeTableRows_rows_are_children
  fuel state parentId level idxOffset rows idxOffset' :
  buildTreeTableRows fuel state parentId level idxOffset
  = Some (rows, idxOffset') ->
  Forall2 (row_of_item level)
          (filter (fun item => parent_eqb (parent item) parentId) (items state))
          rows.
Proof.
  revert parentId level idxOffset rows idxOffset'.
  induction fuel as [|fuel IH]; intros parentId level c rows c' H;
    [discriminate|].
  cbn [buildTreeTableRows] in H. revert c rows H.
  induction (filter (fun item => parent_eqb (parent item) parentId)
                    (items state)) as [|item l IHl]; intros c rows H.
  - cbn in H. inversion H. constructor.
  - apply map_counting_cons_Some in H.
    destruct H as [row [c1 [rest [Hrow [Hrest ->]]]]].
    constructor; [|eapply IHl; eauto].
    apply buildTreeTableRows_callback in Hrow.
    destruct Hrow as [children [counter' [Hcall [_ ->]]]].
    unfold row_of_item.
    cbn [row_id row_parent row_label row_level row_children row_category].
    repeat (split; [reflexivity|]). split; [|split].
    + intros ->. reflexivity.
    + destruct children; [congruence|reflexivity].
    + pose proof (IH _ _ _ _ _ Hcall) as HF. rewrite Forall_forall.
      intros ch Hch. destruct (Forall2_In_r _ _ _ ch HF Hch) as [it [Hit Hr]].
      apply filter_In in Hit. destruct Hit as [_ Hp].
      apply parent_eqb_eq in Hp.
      destruct Hr as [_ [Hpar [_ [Hlev _]]]]. split; congruence.
Qed.

Lemma buildTreeTableRows_rows_are_children_witness :
  Forall2 (row_of_item 0)
          (filter (fun item => parent_eqb (parent item) None) (items seed))
          [mkTreeTableRow "1" None "Item 1" 4 "Группа"
             [mkTreeTableRow "2" (Some "1") "Item 2" 2 "Группа"
                [mkTreeTableRow "4" (Some "2") "Item 4" 1 "Элемент" [] 2] 1;
              mkTreeTableRow "3" (Some "1") "Item 3" 3 "Элемент" [] 1] 0].
Proof.
  apply (buildTreeTableRows_rows_are_children 5 seed None 0 1 _ 5).
  reflexivity.
Defined.

Lemma count_from_shift c n m a :
  map (fun k => (c + Z.of_nat k)%Z) (seq (a + n) m)
  = map (fun k => (c + Z.of_nat n + Z.of_nat k)%Z) (seq a m).
Proof.
  revert a. induction m as [|m IH]; intros a; [reflexivity|].
  cbn [seq map]. f_equal; [lia|]. apply (IH (S a)).
Qed.

Lemma count_from_app c n m :
  count_from c (n + m) = count_from c n ++ count_from (c + Z.of_nat n) m.
Proof.
  unfold count_from. rewrite seq_app, map_app. f_equal.
  apply (count_from_shift c n m 0).
Qed.

Lemma count_from_one c : count_from c 1 = [c].
Proof. unfold count_from. cbn. f_equal. lia. Qed.

(** X25. [buildTreeTableRows] numbers the rows in post-order: read with
    every row after its children, the indexes of the rows it returns
    are the consecutive numbers from the initial value of the counter
    on, and the counter ends just after the last of them. So a row is
    numbered after all the rows below it. *)
Theorem buildTreeTableRows_numbers_post_order
  fuel state parentId level idxOffset rows idxOffset' :
  buildTreeTableRows fuel state parentId level idxOffset
  = Some (rows, idxOffset') ->
  map row_index (all_rows_post rows)
  = count_from idxOffset (List.length (all_rows_post rows)) /\
  idxOffset' = (idxOffset + Z.of_nat (List.length (all_rows_post rows)))%Z.
Proof.
  revert parentId level idxOffset rows idxOffset'.
  induction fuel as [|fuel IH]; intros parentId level c rows c' H;
    [discriminate|].
  cbn [buildTreeTableRows] in H. revert c rows H.
  induction (filter (fun item => parent_eqb (parent item) parentId)
                    (items state)) as [|item l IHl]; intros c rows H.
  - cbn in H. inversion H; subst. cbn. split; [reflexivity|lia].
  - apply map_counting_cons_Some in H.
    destruct H as [row [c1 [rest [Hrow [Hrest ->]]]]].
    apply buildTreeTableRows_callback in Hrow.
    destruct Hrow as [children [counter' [Hcall [-> ->]]]].
    destruct (IH _ _ _ _ _ Hcall) as [Hch Hcounter].
    destruct (IHl _ _ Hrest) as [Hr Hend].
    unfold all_rows_post in *. cbn [flat_map rows_below_post row_children].
    rewrite !length_app, !map_app. cbn [List.length map row_index].
    rewrite !count_from_app, count_from_one. split.
    + rewrite Hch, Hr, <- Hcounter. f_equal. f_equal. lia.
    + lia.
Qed.

Lemma buildTreeTableRows_numbers_post_order_witness :
  map row_index
    (all_rows_post
       [mkTreeTableRow "1" None "Item 1" 4 "Группа"
          [mkTreeTableRow "2" (Some "1") "Item 2" 2 "Группа"
             [mkTreeTableRow "4" (Some "2") "Item 4" 1 "Элемент" [] 2] 1;
           mkTreeTableRow "3" (Some "1") "Item 3" 3 "Элемент" [] 1] 0])
  = count_from 1 4.
Proof.
  apply (proj1 (buildTreeTableRows_numbers_post_order 5 seed None 0 1 _ 5
                  eq_refl)).
Defined.

Lemma collect_In_None g l c :
  In c l -> g c = None -> collect g l = None.
Proof.
  induction l as [|a l IH]; cbn [collect In]; [contradiction|].
  intros [->|Hin] Hc.
  - rewrite Hc. reflexivity.
  - rewrite (IH Hin Hc). destruct (g a); reflexivity.
Qed.

Lemma buildTreeTableRows_None_getAllChildren fuel state i level c :
  buildTreeTableRows fuel state (Some i) level c = None ->
  getAllChildren fuel state i = None.
Proof.
  revert i level c. induction fuel as [|fuel IH]; intros i level c H;
    [reflexivity|].
  cbn [buildTreeTableRows] in H. apply map_counting_None in H.
  destruct H as [item [c1 [Hin Hnone]]].
  rewrite getAllChildren_unfold.
  rewrite (collect_In_None _ (getChildren state i) item Hin); [reflexivity|].
  destruct (buildTreeTableRows fuel state (Some (id item)) (level + 1) c1)
    as [[children c2]|] eqn:E; [discriminate|].
  eapply IH; eauto.
Qed.

Lemma buildTreeTableRows_mono fuel fuel' state parentId level c r :
  buildTreeTableRows fuel state parentId level c = Some r ->
  fuel <= fuel' ->
  buildTreeTableRows fuel' state parentId level c = Some r.
Proof.
  revert fuel' parentId level c r.
  induction fuel as [|fuel IH]; intros fuel' parentId level c r H Hle;
    [discriminate|].
  destruct fuel' as [|fuel']; [lia|]. cbn [buildTreeTableRows] in *.
  eapply map_counting_mono; [|exact H].
  intros item counter y Hy. cbn beta in *.
  destruct (buildTreeTableRows fuel state (Some (id item)) (level + 1) counter)
    as [[children c2]|] eqn:E; [|discriminate].
  rewrite (IH fuel' _ _ _ _ E); [exact Hy|lia].
Qed.

Lemma buildTreeTableRows_terminates state parentId level c :
  acyclic state ->
  exists r,
    buildTreeTableRows (S (List.length (items state))) state parentId level c
    = Some r.
Proof.
  intros Hac.
  destruct (buildTreeTableRows (S (List.length (items state))) state parentId
                               level c) as [r|] eqn:E; [eauto|].
  exfalso. cbn [buildTreeTableRows] in E. apply map_counting_None in E.
  destruct E as [item [c1 [Hin Hnone]]]. apply filter_In in Hin.
  destruct Hin as [Hin _].
  destruct (buildTreeTableRows (List.length (items state)) state
              (Some (id item)) (level + 1) c1) as [[children c2]|] eqn:E;
    [discriminate|].
  apply buildTreeTableRows_None_getAllChildren in E.
  apply getAllChildren_None_chain in E.
  destruct E as [l [Hlen [Hincl [Hall Hfop]]]].
  assert (Hle : List.length (id item :: l) <= List.length (items state)).
  { apply ordered_chain_length with (R := fun a b => ancestor state b a).
    - exact Hac.
    - constructor; assumption.
    - apply incl_cons; [apply in_map; exact Hin|exact Hincl]. }
  cbn [List.length] in Hle. lia.
Qed.

(** X26. In a collection without cycles the table of the page is built:
    [treeRows] returns the same rows for every amount of fuel above the
    size of the collection. *)
Theorem treeRows_terminates (p : Page) :
  acyclic (treeStore p) ->
  exists rows,
    forall fuel, List.length (items (treeStore p)) < fuel ->
                 treeRows fuel p = Some rows.
Proof.
  intros Hac.
  destruct (buildTreeTableRows_terminates (treeStore p) None 0 1 Hac)
    as [[rows c'] Hr].
  exists rows. intros fuel Hlt. unfold treeRows.
  rewrite (buildTreeTableRows_mono _ fuel _ _ _ _ _ Hr); [reflexivity|lia].
Qed.

Lemma treeRows_terminates_witness :
  exists rows,
    forall fuel, List.length (items (treeStore seed_page)) < fuel ->
                 treeRows fuel seed_page = Some rows.
Proof.
  apply (treeRows_terminates seed_page).
  apply forest_acyclic, forestb_sound. reflexivity.
Defined.

Lemma buildTreeTableRows_preorder_ids
  fuel state i level idxOffset rows idxOffset' :
  buildTreeTableRows fuel state (Some i) level idxOffset
  = Some (rows, idxOffset') ->
  exists r, preorder fuel state i = Some r /\
            map row_id (all_rows rows) = map id r.
Proof.
  revert i level idxOffset rows idxOffset'.
  induction fuel as [|fuel IH]; intros i level c rows c' H; [discriminate|].
  cbn [buildTreeTableRows preorder] in *. unfold getChildren.
  revert c rows H.
  induction (filter (fun item => parent_eqb (parent item) (Some i))
                    (items state)) as [|item l IHl]; intros c rows H.
  - cbn in H. inversion H; subst. exists []. split; reflexivity.
  - apply map_counting_cons_Some in H.
    destruct H as [row [c1 [rest [Hrow [Hrest ->]]]]].
    apply buildTreeTableRows_callback in Hrow.
    destruct Hrow as [children [counter' [Hcall [-> ->]]]].
    destruct (IH _ _ _ _ _ Hcall) as [sub [Hsub Hids]].
    destruct (IHl _ _ Hrest) as [r [Hr Hrids]].
    exists (item :: sub ++ r). split.
    + cbn [fold_right]. rewrite Hsub, Hr. reflexivity.
    + unfold all_rows in *. cbn [flat_map rows_below row_children map row_id].
      cbn [app map]. f_equal. rewrite !map_app. congruence.
Qed.

(** X27. Read with every row before its children, the rows that
    [buildTreeTableRows] returns for an id list the descendants of that
    id in pre-order: each child followed at once by its own
    descendants. *)
Theorem buildTreeTableRows_lists_preorder
  fuel state i level idxOffset rows idxOffset' :
  buildTreeTableRows fuel state (Some i) level idxOffset
  = Some (rows, idxOffset') ->
  exists r, preorder fuel state i = Some r /\
            map row_id (all_rows rows) = map id r.
Proof.
  revert i level idxOffset rows idxOffset'.
  induction fuel as [|fuel IH]; intros i level c rows c' H; [discriminate|].
  cbn [buildTreeTableRows preorder] in *. unfold getChildren.
  revert c rows H.
  induction (filter (fun item => parent_eqb (parent item) (Some i))
                    (items state)) as [|item l IHl]; intros c rows H.
  - cbn in H. inversion H; subst. exists []. split; reflexivity.
  - apply map_counting_cons_Some in H.
    destruct H as [row [c1 [rest [Hrow [Hrest ->]]]]].
    apply buildTreeTableRows_callback in Hrow.
    destruct Hrow as [children [counter' [Hcall [-> ->]]]].
    destruct (IH _ _ _ _ _ Hcall) as [sub [Hsub Hids]].
    destruct (IHl _ _ Hrest) as [r [Hr Hrids]].
    exists (item :: sub ++ r). split.
    + cbn [fold_right]. rewrite Hsub, Hr. reflexivity.
    + unfold all_rows in *. cbn [flat_map rows_below row_children map row_id].
      cbn [app map]. f_equal. rewrite !map_app. congruence.
Qed.

Lemma buildTreeTableRows_lists_preorder_witness :
  exists r, preorder 5 family5 "1" = Some r /\
            ["2"; "4"; "5"; "3"] = map id r.
Proof.
  destruct (buildTreeTableRows_lists_preorder 5 family5 "1" 1 1 _ 5 eq_refl)
    as [r [Hr Hids]].
  exists r. split; [exact Hr|exact Hids].
Defined.

(** ** Renaming a node *)

(** The invariant depends on the ids and parents of the nodes only. *)
Lemma forest_same_shape state state' :
  map (fun x => (id x, parent x)) (items state)
  = map (fun x => (id x, parent x)) (items state') ->
  forest state -> forest state'.
Proof.
  intros Hshape [Hu Hr Hac].
  assert (Hids : map id (items state') = map id (items state)).
  { transitivity (map fst (map (fun x => (id x, parent x)) (items state'))).
    - rewrite map_map. reflexivity.
    - rewrite <- Hshape, map_map. reflexivity. }
  assert (Hpo : forall c q, parent_of state' c q -> parent_of state c q).
  { intros c q [x [Hx [Hxi Hxp]]].
    assert (Hin : In (c, Some q)
                     (map (fun x => (id x, parent x)) (items state))).
    { rewrite Hshape. apply in_map_iff. exists x. split; [congruence|exact Hx]. }
    apply in_map_iff in Hin. destruct Hin as [x0 [Heq Hx0]].
    inversion Heq. exists x0. auto. }
  assert (Hanc : forall c a, ancestor state' c a -> ancestor state c a).
  { induction 1 as [c q H | c q a H _ IH].
    - apply ancestor_parent. auto.
    - eapply ancestor_step; eauto. }
  split.
  - unfold unique_ids. rewrite Hids. exact Hu.
  - intros x q Hx Hxp.
    destruct (Hpo (id x) q) as [x0 [Hx0 [_ Hx0p]]]; [exists x; auto|].
    destruct (Hr x0 q Hx0 Hx0p) as [y [Hy Hyq]].
    assert (Hin : In q (map id (items state'))).
    { rewrite Hids, <- Hyq. apply in_map. exact Hy. }
    apply in_map_iff in Hin. destruct Hin as [y' [Hy' Hin']]. eauto.
  - intros c Hc. exact (Hac c (Hanc c c Hc)).
Qed.

Lemma set_label_first_shape i newLabel its :
  map (fun x => (id x, parent x)) its
  = map (fun x => (id x, parent x)) (set_label_first i newLabel its).
Proof.
  induction its as [|x its IH]; [reflexivity|]. cbn [set_label_first].
  destruct (String.eqb (id x) i); cbn [map id parent]; [reflexivity|].
  f_equal. exact IH.
Qed.

Lemma set_label_first_find i newLabel its e :
  find (fun item => String.eqb (id item) i) its = Some e ->
  find (fun item => String.eqb (id item) i) (set_label_first i newLabel its)
  = Some {| id := id e; parent := parent e; label := newLabel |}.
Proof.
  induction its as [|x its IH]; [discriminate|]. cbn [find set_label_first].
  destruct (String.eqb (id x) i) eqn:E.
  - intros H. inversion H; subst x. cbn [find id]. rewrite E. reflexivity.
  - intros H. cbn [find]. rewrite E. apply IH. exact H.
Qed.

Lemma set_label_first_find_other i j newLabel its :
  j <> i ->
  find (fun item => String.eqb (id item) j) (set_label_first i newLabel its)
  = find (fun item => String.eqb (id item) j) its.
Proof.
  intros Hj. induction its as [|x its IH]; [reflexivity|].
  cbn [set_label_first]. destruct (String.eqb (id x) i) eqn:E.
  - cbn [find id]. apply String.eqb_eq in E.
    assert (Ej : String.eqb (id x) j = false).
    { apply String.eqb_neq. congruence. }
    rewrite Ej. reflexivity.
  - cbn [find]. destruct (String.eqb (id x) j); [reflexivity|exact IH].
Qed.

(** X28. [updateLabel] on an id that names no node changes nothing and
    pushes no snapshot. Otherwise the first node with that id gets the
    new label and keeps its id and parent, every lookup of another id
    answers as before, a forest stays a forest, and the snapshot pushed
    onto the history holds the renamed collection. *)
Theorem updateLabel_renames_one_node (i newLabel : string) (p : Page) :
  (getItemById (treeStore p) i = None -> updateLabel i newLabel p = p) /\
  (forall e,
      getItemById (treeStore p) i = Some e ->
      getItemById (treeStore (updateLabel i newLabel p)) i
      = Some {| id := id e; parent := parent e; label := newLabel |} /\
      (forall j, j <> i ->
                 getItemById (treeStore (updateLabel i newLabel p)) j
                 = getItemById (treeStore p) j) /\
      (forest (treeStore p) -> forest (treeStore (updateLabel i newLabel p))) /\
      at_index (history (updateLabel i newLabel p))
               (historyIndex (updateLabel i newLabel p))
      = Some (items (treeStore (updateLabel i newLabel p)))).
Proof.
  split.
  - intros H. unfold updateLabel. rewrite H. reflexivity.
  - intros e He. unfold updateLabel. rewrite He.
    set (q := {| treeStore := {| items := set_label_first i newLabel
                                           (items (treeStore p)) |};
                 history := history p; historyIndex := historyIndex p;
                 expanded := expanded p |}).
    destruct (pushHistory_appends_snapshot_parts q) as [Hstore Hsnap].
    rewrite Hsnap, Hstore. unfold q. cbn [treeStore].
    split; [|split; [|split; [|reflexivity]]].
    + unfold getItemById in *. cbn [items].
      apply set_label_first_find. exact He.
    + intros j Hj. unfold getItemById. cbn [items].
      apply set_label_first_find_other. exact Hj.
    + apply forest_same_shape. cbn [items]. apply set_label_first_shape.
Qed.

Lemma updateLabel_renames_one_node_witness :
  getItemById (treeStore (updateLabel "2" "Renamed" seed_page)) "2"
  = Some (node "2" (Some "1") "Renamed") /\
  updateLabel "9" "Renamed" seed_page = seed_page.
Proof.
  destruct (updateLabel_renames_one_node "2" "Renamed" seed_page)
    as [_ Hfound].
  destruct (updateLabel_renames_one_node "9" "Renamed" seed_page)
    as [Hmissing _].
  split.
  - apply (proj1 (Hfound (node "2" (Some "1") "Item 2") eq_refl)).
  - apply Hmissing. reflexivity.
Defined.

(** * The table and the collection *)

(** [getAllChildren] and the pre-order traversal return together, and
    then with the same nodes. *)
Lemma getAllChildren_preorder fuel state i :
  match getAllChildren fuel state i, preorder fuel state i with
  | Some r, Some r' => Permutation r r'
  | None, None => True
  | _, _ => False
  end.
Proof.
  revert i. induction fuel as [|fuel IH]; intros i; [exact I|].
  rewrite getAllChildren_unfold. cbn [preorder].
  assert (Hlevel : forall cs,
    match collect (fun c => getAllChildren fuel state (id c)) cs,
          fold_right
            (fun child rest =>
               match preorder fuel state (id child), rest with
               | Some sub, Some r => Some (child :: sub ++ r)
               | _, _ => None
               end) (Some []) cs with
    | Some rs, Some r' => Permutation (cs ++ List.concat rs) r'
    | None, None => True
    | _, _ => False
    end).
  { induction cs as [|c cs IHcs]; cbn [collect fold_right]; [constructor|].
    specialize (IH (id c)).
    destruct (getAllChildren fuel state (id c)) as [rc|],
             (preorder fuel state (id c)) as [sub|]; try contradiction.
    - destruct (collect _ cs) as [rs|], (fold_right _ _ cs) as [r'|];
        try contradiction; [|exact I].
      cbn [List.concat app]. constructor.
      eapply Permutation_trans; [apply Permutation_app_swap_app|].
      apply Permutation_app; assumption.
    - destruct (collect _ cs) as [rs|], (fold_right _ _ cs) as [r'|];
        try contradiction; exact I. }
  specialize (Hlevel (getChildren state i)).
  destruct (collect _ (getChildren state i)) as [rs|]; exact Hlevel.
Qed.

(** X29. Whenever [getAllChildren] returns, the pre-order traversal of
    the same id returns a rearrangement of its result: the two list the
    same nodes, each as often, in different orders. *)
Theorem getAllChildren_permutation_of_preorder fuel state i r :
  getAllChildren fuel state i = Some r ->
  exists r', preorder fuel state i = Some r' /\ Permutation r r'.
Proof.
  intros H. pose proof (getAllChildren_preorder fuel state i) as Hp.
  rewrite H in Hp. destruct (preorder fuel state i) as [r'|]; [|contradiction].
  exists r'. split; [reflexivity|exact Hp].
Qed.

Lemma getAllChildren_permutation_of_preorder_witness :
  exists r', preorder 6 family5 "1" = Some r' /\
             Permutation [node "2" (Some "1") "Child 1";
                          node "3" (Some "1") "Child 2";
                          node "4" (Some "2") "Grandchild 1";
                          node "5" (Some "2") "Grandchild 2"] r'.
Proof.
  apply (getAllChildren_permutation_of_preorder 6 family5 "1" _ eq_refl).
Defined.

(** Every node of a forest is a root or lies below one. *)
Lemma root_or_chain state n x :
  parents_resolve state -> In x (items state) ->
  (exists r, In r (items state) /\ parent r = None /\ under state r (id x)) \/
  (exists l, List.length l = n /\ incl l (map id (items state)) /\
             Forall (fun a => ancestor state (id x) a) l /\
             ForallOrdPairs (fun a b => ancestor state a b) l).
Proof.
  intros Hr. revert x. induction n as [|n IH]; intros x Hx.
  - right. exists []. split; [reflexivity|]. split; [apply incl_nil_l|].
    split; constructor.
  - destruct (parent x) as [q|] eqn:Eq.
    2:{ left. exists x. split; [exact Hx|]. split; [exact Eq|].
        left. reflexivity. }
    destruct (Hr x q Hx Eq) as [y [Hy Hyq]]. subst q.
    assert (Hxy : parent_of state (id x) (id y)) by (exists x; auto).
    destruct (IH y Hy) as [[r [Hrin [Hrp Hunder]]] | [l [Hlen [Hincl [Hall Hfop]]]]].
    + left. exists r. split; [exact Hrin|]. split; [exact Hrp|]. right.
      exists x. split; [exact Hx|]. split; [reflexivity|].
      destruct Hunder as [Heq | [_ [_ [_ Hanc]]]].
      * rewrite <- Heq. apply ancestor_parent. exact Hxy.
      * eapply ancestor_step; eauto.
    + right. exists (id y :: l). split; [cbn; congruence|]. split.
      { apply incl_cons; [apply in_map; exact Hy|exact Hincl]. }
      split.
      * constructor; [apply ancestor_parent; exact Hxy|].
        rewrite Forall_forall in *. intros a Ha.
        exact (ancestor_step state _ _ a Hxy (Hall a Ha)).
      * constructor; assumption.
Qed.

Lemma every_node_under_a_root state x :
  forest state -> In x (items state) ->
  exists r, In r (items state) /\ parent r = None /\ under state r (id x).
Proof.
  intros [_ Hr Hac] Hx.
  destruct (root_or_chain state (S (List.length (items state))) x Hr Hx)
    as [H | [l [Hlen [Hincl [_ Hfop]]]]]; [exact H|].
  exfalso.
  assert (Hle : List.length l <= List.length (items state)).
  { eapply ordered_chain_length with (R := fun a b => ancestor state a b);
      eauto. }
  lia.
Qed.

Lemma root_no_ancestor state r a :
  unique_ids state -> In r (items state) -> parent r = None ->
  ~ ancestor state (id r) a.
Proof.
  intros Hu Hr Hp Hanc.
  assert (Hpo : exists q, parent_of state (id r) q).
  { inversion Hanc; subst; eauto. }
  destruct Hpo as [q [x [Hx [Hxi Hxp]]]].
  rewrite (unique_ids_inj state x r Hu Hx Hr Hxi) in Hxp. congruence.
Qed.

(** Two different roots have nothing in common below them. *)
Lemma under_disjoint state r1 r2 j :
  unique_ids state ->
  In r1 (items state) -> parent r1 = None ->
  In r2 (items state) -> parent r2 = None ->
  r1 <> r2 ->
  under state r1 j -> under state r2 j -> False.
Proof.
  intros Hu H1 Hp1 H2 Hp2 Hne [E1 | [x [Hx [Hxj A1]]]] [E2 | [y [Hy [Hyj A2]]]].
  - apply Hne. apply (unique_ids_inj state r1 r2 Hu H1 H2). congruence.
  - rewrite E1 in A2. exact (root_no_ancestor state r1 _ Hu H1 Hp1 A2).
  - rewrite E2 in A1. exact (root_no_ancestor state r2 _ Hu H2 Hp2 A1).
  - destruct (ancestor_linear _ _ _ _ Hu A1 A2) as [E | [E | E]].
    + apply Hne. apply (unique_ids_inj state r1 r2 Hu H1 H2 E).
    + exact (root_no_ancestor state r1 _ Hu H1 Hp1 E).
    + exact (root_no_ancestor state r2 _ Hu H2 Hp2 E).
Qed.

(** One level of the table, with the calls that built the children. *)
Lemma buildTreeTableRows_level fuel state parentId level c rows c' :
  buildTreeTableRows (S fuel) state parentId level c = Some (rows, c') ->
  Forall2 (fun item row =>
             row_id row = id item /\
             exists c1 c2,
               buildTreeTableRows fuel state (Some (id item)) (level + 1) c1
               = Some (row_children row, c2))
          (filter (fun item => parent_eqb (parent item) parentId) (items state))
          rows.
Proof.
  cbn [buildTreeTableRows]. revert c rows.
  induction (filter (fun item => parent_eqb (parent item) parentId)
                    (items state)) as [|item l IHl]; intros c rows H.
  - cbn in H. inversion H. constructor.
  - apply map_counting_cons_Some in H.
    destruct H as [row [c1 [rest [Hrow [Hrest ->]]]]].
    constructor; [|eapply IHl; eauto].
    apply buildTreeTableRows_callback in Hrow.
    destruct Hrow as [children [counter' [Hcall [_ ->]]]].
    cbn [row_id row_children]. split; [reflexivity|eauto].
Qed.

(** The ids of a row of the first level and of the rows below it are,
    without repetition, the ids of its item and of the nodes below it. *)
Lemma row_ids_under fuel state level item row c1 c2 :
  forest state -> In item (items state) ->
  row_id row = id item ->
  buildTreeTableRows fuel state (Some (id item)) level c1
  = Some (row_children row, c2) ->
  NoDup (map row_id (rows_below row)) /\
  forall j, In j (map row_id (rows_below row)) <-> under state item j.
Proof.
  intros Hf Hitem Hid Hcall. pose proof Hf as [Hu Hr Hac].
  destruct (buildTreeTableRows_preorder_ids _ _ _ _ _ _ _ Hcall)
    as [pre [Hpre Hids]].
  pose proof (getAllChildren_preorder fuel state (id item)) as Hperm.
  rewrite Hpre in Hperm.
  destruct (getAllChildren fuel state (id item)) as [gc|] eqn:Egc;
    [|contradiction].
  assert (Hrow : map row_id (rows_below row)
                 = id item :: map id pre).
  { destruct row as [ri rp rl rx rc rch rv]. cbn [row_id row_children] in *.
    cbn [rows_below row_children map row_id]. rewrite Hid. f_equal.
    exact Hids. }
  assert (Hin : forall j, In j (map id pre) <->
                          exists x, In x (items state) /\ id x = j /\
                                    ancestor state j (id item)).
  { intros j. split.
    - intros Hj. apply in_map_iff in Hj. destruct Hj as [x [Hxj Hx]].
      apply (Permutation_in _ (Permutation_sym Hperm)) in Hx.
      destruct (getAllChildren_sound _ _ _ _ Egc x Hx) as [Hxin Hanc].
      exists x. subst j. auto.
    - intros [x [Hx [Hxj Hanc]]]. apply in_map_iff. exists x.
      split; [exact Hxj|]. apply (Permutation_in _ Hperm).
      apply (getAllChildren_complete _ _ _ _ Hu Egc). split; [exact Hx|].
      rewrite Hxj. exact Hanc. }
  rewrite Hrow. split.
  - constructor.
    + intros Hself. apply Hin in Hself. destruct Hself as [_ [_ [_ Hanc]]].
      exact (Hac _ Hanc).
    + apply (Permutation_NoDup (Permutation_map id Hperm)).
      apply NoDup_map_NoDup_ForallPairs.
      * intros a b Ha Hb Hab.
        apply (unique_ids_inj state a b Hu); [| |exact Hab].
        -- apply (getAllChildren_sound _ _ _ _ Egc a Ha).
        -- apply (getAllChildren_sound _ _ _ _ Egc b Hb).
      * eapply getAllChildren_NoDup; eauto.
  - intros j. unfold under. cbn [In]. rewrite Hin. split.
    + intros [E|H]; [left; congruence|right; exact H].
    + intros [E|H]; [left; congruence|right; exact H].
Qed.

Lemma table_ids state roots rows :
  forest state ->
  (forall r, In r roots -> In r (items state) /\ parent r = None) ->
  NoDup roots ->
  Forall2 (fun root row =>
             NoDup (map row_id (rows_below row)) /\
             forall j, In j (map row_id (rows_below row)) <-> under state root j)
          roots rows ->
  NoDup (map row_id (all_rows rows)) /\
  forall j, In j (map row_id (all_rows rows))
            <-> exists r, In r roots /\ under state r j.
Proof.
  intros Hf Hroots Hnd HF. pose proof (forest_unique _ Hf) as Hu.
  unfold all_rows.
  induction HF as [|root row roots rows [Hnd1 Hin1] HF' IH].
  - split; [constructor|]. intros j. cbn. split; [contradiction|].
    intros [r [[] _]].
  - inversion Hnd as [|? ? Hnotin Hnd']; subst.
    destruct IH as [IHnd IHin]; [intros r Hr; apply Hroots; right; exact Hr
                                |exact Hnd'|].
    cbn [flat_map]. rewrite map_app. split.
    + apply NoDup_app; [exact Hnd1|exact IHnd|].
      intros j Hj1 Hj2. apply Hin1 in Hj1. apply IHin in Hj2.
      destruct Hj2 as [r2 [Hr2 Hunder2]].
      destruct (Hroots root (or_introl eq_refl)) as [Hrin Hrp].
      destruct (Hroots r2 (or_intror Hr2)) as [Hr2in Hr2p].
      apply (under_disjoint state root r2 j Hu Hrin Hrp Hr2in Hr2p);
        [|exact Hj1|exact Hunder2].
      intros ->. contradiction.
    + intros j. rewrite in_app_iff, Hin1, IHin. split.
      * intros [H | [r [Hr H]]]; [exists root|exists r]; cbn [In]; auto.
      * intros [r [[<-|Hr] H]]; [left; exact H|right; eauto].
Qed.

(** X30. The table of a forest shows every node exactly once: the ids of
    all the rows [treeRows] builds, children included, are a
    rearrangement of the ids of the collection. *)
Theorem table_shows_every_node_once (p : Page) (fuel : nat)
  (rows : list TreeTableRow) :
  forest (treeStore p) ->
  treeRows fuel p = Some rows ->
  Permutation (map row_id (all_rows rows)) (map id (items (treeStore p))).
Proof.
  intros Hf H. pose proof Hf as [Hu Hr Hac]. unfold treeRows in H.
  destruct (buildTreeTableRows fuel (treeStore p) None 0 1)
    as [[rows' c']|] eqn:E; [|discriminate].
  cbn in H. inversion H; subst rows'. clear H.
  destruct fuel as [|fuel]; [discriminate|].
  apply buildTreeTableRows_level in E.
  set (roots := filter (fun item => parent_eqb (parent item) None)
                       (items (treeStore p))) in *.
  assert (Hroots : forall r, In r roots ->
                             In r (items (treeStore p)) /\ parent r = None).
  { intros r Hin. apply filter_In in Hin. destruct Hin as [Hin Hp].
    apply parent_eqb_eq in Hp. auto. }
  assert (Hnd : NoDup roots).
  { apply NoDup_filter. eapply NoDup_map_inv. exact Hu. }
  assert (HF : Forall2 (fun root row =>
             NoDup (map row_id (rows_below row)) /\
             forall j, In j (map row_id (rows_below row))
                       <-> under (treeStore p) root j) roots rows).
  { assert (Hall : forall r, In r roots -> In r (items (treeStore p)))
      by (intros r Hin; apply Hroots; exact Hin).
    clear Hroots Hnd. induction E as [|root row rs rws [Hid [c1 [c2 Hcall]]] _ IH];
      constructor.
    - eapply row_ids_under; eauto. apply Hall. left. reflexivity.
    - apply IH. intros r Hin. apply Hall. right. exact Hin. }
  destruct (table_ids _ _ _ Hf Hroots Hnd HF) as [Hnodup Hin].
  apply NoDup_Permutation; [exact Hnodup|exact Hu|].
  intros j. rewrite Hin. split.
  - intros [r [Hrin [E1 | [x [Hx [Hxj _]]]]]].
    + subst j. apply in_map. apply Hroots. exact Hrin.
    + subst j. apply in_map. exact Hx.
  - intros Hj. apply in_map_iff in Hj. destruct Hj as [x [Hxj Hx]].
    destruct (every_node_under_a_root _ x Hf Hx) as [r [Hrin [Hrp Hunder]]].
    exists r. split; [|rewrite <- Hxj; exact Hunder].
    apply filter_In. split; [exact Hrin|]. apply parent_eqb_eq. exact Hrp.
Qed.

Lemma table_shows_every_node_once_witness :
  Permutation ["1"; "2"; "4"; "3"] (map id (items (treeStore seed_page))).
Proof.
  apply (table_shows_every_node_once seed_page 5
           [mkTreeTableRow "1" None "Item 1" 4 "Группа"
              [mkTreeTableRow "2" (Some "1") "Item 2" 2 "Группа"
                 [mkTreeTableRow "4" (Some "2") "Item 4" 1 "Элемент" [] 2] 1;
               mkTreeTableRow "3" (Some "1") "Item 3" 3 "Элемент" [] 1] 0]).
  - apply forestb_sound. reflexivity.
  - reflexivity.
Defined.
